(** * chooksie module registry: commands, events and lifecycle scripts

    A shallow embedding of the loader module of the framework (the file that
    exports [loadEvent], [loadSlashCommand], [loadSlashSubcommand],
    [loadUserCommand], [loadMessageCommand], [loadScript], [unloadEvent] and
    [unloadScript]) together with the properties of its handler envelopes,
    stores and listener bookkeeping. *)

From Stdlib Require Import ZArith Ascii String List Bool.
From stdpp Require Import base option list strings gmap fin_maps.

Local Open Scope string_scope.
Local Open Scope list_scope.

(** ** Keys *)

Module Key.

(** The separator placed between the segments of a key. *)
Definition sep : ascii := ":"%char.

Definition sep_string : string := String sep EmptyString.

(** Modelled from the spec: [createKey] is imported from [../internals],
    which is not part of the sources at hand.  The spec describes it as the
    join of an ordered list of name segments with a fixed separator, and the
    keys it shows ([cmd:p:g:s1]) fix that separator to a colon. *)
Definition createKey (segments : list string) : string :=
  String.concat sep_string segments.

(** Modelled from the spec: [buildKey(kind, ...segments)], the key builder
    of the spec, which is [createKey] with the kind tag as first segment. *)
Definition buildKey (kind : string) (segments : list string) : string :=
  createKey (kind :: segments).

(** Does the separator occur in [s]? *)
Fixpoint has_sep (s : string) : bool :=
  match s with
  | EmptyString => false
  | String c rest => Ascii.eqb c sep || has_sep rest
  end.

(** Modelled from the spec: a segment is non-empty (checked by the callers)
    and the separator character is not allowed inside it. *)
Definition segment_ok (s : string) : Prop :=
  s <> EmptyString /\ has_sep s = false.

End Key.

Import Key.

(** ** Values, outcomes and the state-and-exception monad *)

(** JavaScript values as far as the registry looks at them.  Thrown values
    are values too; [VError] stands for an [Error] object with its class
    name and message. *)
#[warnings="-register-all"]
Inductive Value : Type :=
| VUndefined
| VBool (b : bool)
| VNum (n : Z)
| VStr (s : string)
| VObj (fields : list (string * Value))
| VError (class message : string).

(** The value of the literal [({})]. *)
Definition emptyObject : Value := VObj [].

(** How a call ends: it returns (an async function's promise resolves) or
    it throws (the promise rejects). *)
Inductive Outcome (A : Type) : Type :=
| Ok (a : A)
| Throw (error : Value).
Arguments Ok {A} a.
Arguments Throw {A} error.

Definition resolves {A} (o : Outcome A) : bool :=
  match o with Ok _ => true | Throw _ => false end.

(** Computations over a mutable state [S] that may throw. *)
Definition M (S A : Type) : Type := S -> Outcome A * S.

Definition ret {S A} (a : A) : M S A := fun s => (Ok a, s).

Definition throw {S A} (e : Value) : M S A := fun s => (Throw e, s).

Definition bind {S A B} (m : M S A) (k : A -> M S B) : M S B :=
  fun s =>
    match m s with
    | (Ok a, s') => k a s'
    | (Throw e, s') => (Throw e, s')
    end.

(** [try { body } catch (error) { handler error }] *)
Definition try_catch {S A} (body : M S A) (handler : Value -> M S A) : M S A :=
  fun s =>
    match body s with
    | (Ok a, s') => (Ok a, s')
    | (Throw e, s') => handler e s'
    end.

Definition modify {S} (f : S -> S) : M S unit := fun s => (Ok tt, f s).

Definition gets {S A} (f : S -> A) : M S A := fun s => (Ok (f s), s).

Declare Scope js_scope.
Delimit Scope js_scope with js.
Notation "x <- m ;; k" := (bind m (fun x => k))
  (at level 100, m at next level, k at level 200, right associativity) : js_scope.
Notation "m ;; k" := (bind m (fun _ => k))
  (at level 100, k at level 200, right associativity) : js_scope.
Local Open Scope js_scope.

(** [for (const x of xs) body x]; a throw in the body leaves the loop. *)
Fixpoint for_of {S A} (xs : list A) (body : A -> M S unit) : M S unit :=
  match xs with
  | [] => ret tt
  | x :: rest => body x ;; for_of rest body
  end.

(** ** Loggers *)

Inductive Level : Type := LTrace | LDebug | LInfo | LWarn | LError | LSuccess.

Definition Level_eqb (a b : Level) : bool :=
  match a, b with
  | LTrace, LTrace | LDebug, LDebug | LInfo, LInfo
  | LWarn, LWarn | LError, LError | LSuccess, LSuccess => true
  | _, _ => false
  end.

(** A logger handle: the namespace it was created for by the factory and
    the structured fields added by [child]. *)
Record Logger : Type := mkLogger {
  lg_type : string;
  lg_name : string;
  lg_fields : list (string * string)
}.

Definition LoggerFactory : Type := string -> string -> Logger.

(** [logger.child({ reqId })]: a derived logger; the parent is untouched. *)
Definition child (logger : Logger) (reqId : string) : Logger :=
  {| lg_type := lg_type logger;
     lg_name := lg_name logger;
     lg_fields := lg_fields logger ++ [("reqId", reqId)] |}.

(** What is handed to a log method: a text, a thrown value, or the record
    [{ responseTime, msg }]. *)
Inductive Message : Type :=
| MText (text : string)
| MValue (v : Value)
| MTimed (responseTime : Z) (msg : string).

Record LogEntry : Type := mkEntry {
  le_logger : Logger;
  le_level : Level;
  le_message : Message
}.

Definition at_level (l : Level) (e : LogEntry) : bool := Level_eqb (le_level e) l.

Definition count_level (l : Level) (entries : list LogEntry) : nat :=
  length (filter (fun e => at_level l e = true) entries).

(** ** The world outside the registry *)

(** Everything user code and the platform own: the wall clock, the source
    of random identifiers with the number of identifiers drawn so far, and
    the user program's own state. *)
Record Ext : Type := mkExt {
  clock : Z;
  uuids : nat -> string;
  drawn : nat;
  heap : Value
}.

(** The event source keeps its listeners in registration order; a function
    is known by its reference. *)
Record ListenerEntry : Type := mkListener {
  l_event : string;
  l_fn : nat;
  l_once : bool
}.

(** The one event source (the chat-platform client) as a handle. *)
Inductive Client : Type := TheClient.

(** Calls that leave the registry, in the order they are made. *)
Inductive Call : Type :=
| CallSetup
| CallExecute (this : Value)
| CallCleanup
| CallOn (name : string) (fn : nat)
| CallOnce (name : string) (fn : nat)
| CallOff (name : string) (fn : nat).

Record World : Type := mkWorld {
  ext : Ext;
  logs : list LogEntry;
  calls : list Call;
  listeners : list ListenerEntry;
  allocated : nat
}.

Definition Async (A : Type) : Type := M World A.

(** User code runs on the outside world only and returns or throws. *)
Definition User (A : Type) : Type := Ext -> Outcome A * Ext.

Definition set_ext (e : Ext) (w : World) : World :=
  {| ext := e; logs := logs w; calls := calls w;
     listeners := listeners w; allocated := allocated w |}.

Definition add_log (entry : LogEntry) (w : World) : World :=
  {| ext := ext w; logs := logs w ++ [entry]; calls := calls w;
     listeners := listeners w; allocated := allocated w |}.

Definition add_call (c : Call) (w : World) : World :=
  {| ext := ext w; logs := logs w; calls := calls w ++ [c];
     listeners := listeners w; allocated := allocated w |}.

Definition set_listeners (ls : list ListenerEntry) (w : World) : World :=
  {| ext := ext w; logs := logs w; calls := calls w;
     listeners := ls; allocated := allocated w |}.

(** [await f()] for a piece of user code. *)
Definition run_user {A} (f : User A) : Async A :=
  fun w => let '(o, e) := f (ext w) in (o, set_ext e w).

Definition log (logger : Logger) (level : Level) (message : Message) : Async unit :=
  modify (add_log (mkEntry logger level message)).

(** [logger?.method(...)] *)
Definition log_opt (logger : option Logger) (level : Level) (message : Message)
  : Async unit :=
  match logger with
  | Some l => log l level message
  | None => ret tt
  end.

(** [randomUUID()] from [node:crypto]: the next identifier of the source. *)
Definition draw (e : Ext) : Ext :=
  {| clock := clock e; uuids := uuids e; drawn := S (drawn e); heap := heap e |}.

Definition randomUUID : Async string :=
  fun w => (Ok (uuids (ext w) (drawn (ext w))), set_ext (draw (ext w)) w).

(** Modelled from the spec: [timer] is imported from [../internals], which
    is not part of the sources at hand.  It records a start timestamp and
    returns the function that yields the elapsed milliseconds. *)
Definition timer : Async (Async Z) :=
  start <- gets (fun w => clock (ext w)) ;;
  ret (gets (fun w => (clock (ext w) - start)%Z)).

(** The event source, with the semantics of Node's [EventEmitter]. *)
Module EventEmitter.

Definition matches (name : string) (fn : nat) (l : ListenerEntry) : bool :=
  String.eqb (l_event l) name && Nat.eqb (l_fn l) fn.

(** Remove the first listener that matches. *)
Fixpoint remove_first (name : string) (fn : nat) (ls : list ListenerEntry)
  : list ListenerEntry :=
  match ls with
  | [] => []
  | l :: rest =>
      if matches name fn l then rest else l :: remove_first name fn rest
  end.

(** [removeListener] takes out at most one instance, the most recently
    added one. *)
Definition remove_last (name : string) (fn : nat) (ls : list ListenerEntry)
  : list ListenerEntry :=
  rev (remove_first name fn (rev ls)).

Definition on (client : Client) (name : string) (fn : nat) : Async unit :=
  modify (add_call (CallOn name fn)) ;;
  modify (fun w => set_listeners (listeners w ++ [mkListener name fn false]) w).

Definition once (client : Client) (name : string) (fn : nat) : Async unit :=
  modify (add_call (CallOnce name fn)) ;;
  modify (fun w => set_listeners (listeners w ++ [mkListener name fn true]) w).

Definition off (client : Client) (name : string) (fn : nat) : Async unit :=
  modify (add_call (CallOff name fn)) ;;
  modify (fun w => set_listeners (remove_last name fn (listeners w)) w).

(** The listeners attached for an event name. *)
Definition listenersOf (name : string) (w : World) : list ListenerEntry :=
  filter (fun l => String.eqb (l_event l) name = true) (listeners w).

Definition listenerCount (name : string) (w : World) : nat :=
  length (listenersOf name w).

End EventEmitter.


(** ** Handler definitions and stores *)

(** [setup]: [() => Awaitable<deps>]. *)
Definition Setup : Type := User Value.

(** A raw handler as the user wrote it: [this] is the dependency context,
    then the call context. *)
Definition Handler : Type := Value -> Value -> User unit.

(** A compiled handler: [ctx => Promise<void>]. *)
Definition GenericHandler : Type := Value -> Async unit.

(** The double quote, for messages that quote a name. *)
Definition dq : string := String (Ascii.ascii_of_nat 34) EmptyString.

Definition quoted (s : string) : string := dq +:+ s +:+ dq.

Definition TypeError (message : string) : Value := VError "TypeError" message.

(** An option of a command: a subcommand, a subcommand group or a plain
    option, told apart by [type] as in the platform's API. *)
#[warnings="-register-all"]
Inductive Option : Type := mkOption {
  opt_name : string;
  opt_type : string;
  opt_setup : option Setup;
  opt_execute : option Handler;
  opt_autocomplete : option Handler;
  opt_options : option (list Option)
}.

Module SlashCommand.
Record t : Type := mk {
  name : string;
  setup : option Setup;
  execute : Handler;
  options : option (list Option)
}.
End SlashCommand.

Module SlashSubcommand.
Record t : Type := mk {
  name : string;
  options : list Option
}.
End SlashSubcommand.

Module UserCommand.
Record t : Type := mk {
  name : string;
  setup : option Setup;
  execute : Handler
}.
End UserCommand.

Module MessageCommand.
Record t : Type := mk {
  name : string;
  setup : option Setup;
  execute : Handler
}.
End MessageCommand.

Module CommandModule.
Record t : Type := mk {
  execute : GenericHandler;
  logger : Logger
}.
End CommandModule.

Record EventContext : Type := mkEventContext {
  ctx_client : Client;
  ctx_logger : Logger
}.

Module Event.
Record t : Type := mk {
  name : string;
  once : bool;
  setup : option Setup;
  execute : Value -> EventContext -> list Value -> User unit
}.
End Event.

(** A function object created by the registry: its reference and its body. *)
Record Listener : Type := mkFn {
  fn_ref : nat;
  fn_body : list Value -> Async unit
}.

Module EventModule.
Record t : Type := mk {
  name : string;
  execute : Listener;
  logger : Logger
}.
End EventModule.

Module SourceMap.
Record t : Type := mk {
  source : string;
  target : string
}.
End SourceMap.

Abbreviation CommandStore := (gmap string CommandModule.t).
Abbreviation EventStore := (gmap string EventModule.t).
Abbreviation ScriptStore := (gmap string (User unit)).

(** [store.has(key)] *)
Definition has {V} (store : gmap string V) (key : string) : bool :=
  bool_decide (is_Some (store !! key)).

(** [store.set(key, value)] on the store a loader threads. *)
Definition set {V} (key : string) (value : V) : M (gmap string V) unit :=
  modify (insert key value).

(** [x ?? (() => ({}))] *)
Definition or_default (setup : option Setup) : Setup :=
  match setup with
  | Some f => f
  | None => fun e => (Ok emptyObject, e)
  end.

(** [await setup()] *)
Definition call_setup (setup : Setup) : Async Value :=
  modify (add_call CallSetup) ;; run_user setup.

(** [await h.call(deps, ctx)] *)
Definition call (h : Handler) (deps ctx : Value) : Async unit :=
  modify (add_call (CallExecute deps)) ;; run_user (h deps ctx).

(** [await (<GenericHandler>o.h).call(deps, ctx)] where the member may be
    missing on the object at hand. *)
Definition call_member (h : option Handler) (deps ctx : Value) : Async unit :=
  match h with
  | Some f => call f deps ctx
  | None => throw (TypeError "Cannot read properties of undefined (reading 'call')")
  end.

(** Creating a closure allocates a function object with a fresh reference. *)
Definition closure (body : list Value -> Async unit) : Async Listener :=
  fun w =>
    (Ok (mkFn (allocated w) body),
     {| ext := ext w; logs := logs w; calls := calls w;
        listeners := listeners w; allocated := S (allocated w) |}).

(** Modelled from the spec: [getAutocompletes] is imported from
    [../internals], which is not part of the sources at hand.  It yields the
    options that declare an autocomplete handler, none for a missing list. *)
Definition getAutocompletes (options : option (list Option)) : list Option :=
  match options with
  | Some l => filter (fun o => is_Some (opt_autocomplete o)) l
  | None => []
  end.

(** ** Command loaders *)

Definition loadAutocompletes (store : CommandStore) (parentKey : string)
    (pino : LoggerFactory) (options : option (list Option))
  : Outcome unit * CommandStore :=
  for_of (getAutocompletes options) (fun option =>
    let key := createKey ["auto"; parentKey; opt_name option] in
    let logger := pino "autocomplete" key in
    let setup := or_default (opt_setup option) in
    let execute : GenericHandler := fun ctx =>
      deps <- call_setup setup ;;
      call_member (opt_autocomplete option) deps ctx in
    set key (CommandModule.mk execute logger)) store.

Definition loadSlashCommand (store : CommandStore) (pino : LoggerFactory)
    (command : SlashCommand.t) : Outcome unit * CommandStore :=
  (let parentKey := createKey [SlashCommand.name command] in
   let key := createKey ["cmd"; parentKey] in
   let logger := pino "command" key in
   let setup := or_default (SlashCommand.setup command) in
   let execute : GenericHandler := fun ctx =>
     deps <- call_setup setup ;;
     call (SlashCommand.execute command) deps ctx in
   set key (CommandModule.mk execute logger) ;;
   fun store => loadAutocompletes store parentKey pino (SlashCommand.options command))
  store.

Definition loadSubcommand (store : CommandStore) (parentName : string)
    (pino : LoggerFactory) (subcommand : Option) : Outcome unit * CommandStore :=
  (let parentKey := createKey [parentName; opt_name subcommand] in
   let key := createKey ["cmd"; parentKey] in
   let logger := pino "subcommand" key in
   let setup := or_default (opt_setup subcommand) in
   let execute : GenericHandler := fun ctx =>
     deps <- call_setup setup ;;
     call_member (opt_execute subcommand) deps ctx in
   set key (CommandModule.mk execute logger) ;;
   fun store => loadAutocompletes store parentKey pino (opt_options subcommand))
  store.

Definition loadSubcommandGroup (store : CommandStore) (parentName : string)
    (pino : LoggerFactory) (group : Option) : Outcome unit * CommandStore :=
  match opt_options group with
  | None => (Throw (TypeError "group.options is not iterable"), store)
  | Some subcommands =>
      for_of subcommands (fun subcommand =>
        let parentKey := createKey [parentName; opt_name group; opt_name subcommand] in
        let key := createKey ["cmd"; parentKey] in
        let logger := pino "subcommand" key in
        let setup := or_default (opt_setup subcommand) in
        let execute : GenericHandler := fun ctx =>
          deps <- call_setup setup ;;
          call_member (opt_execute subcommand) deps ctx in
        set key (CommandModule.mk execute logger) ;;
        fun store => loadAutocompletes store parentKey pino (opt_options subcommand))
      store
  end.

Definition loadSlashSubcommand (store : CommandStore) (pino : LoggerFactory)
    (command : SlashSubcommand.t) : Outcome unit * CommandStore :=
  for_of (SlashSubcommand.options command) (fun option =>
    if String.eqb (opt_type option) "SUB_COMMAND" then
      fun store => loadSubcommand store (SlashSubcommand.name command) pino option
    else if String.eqb (opt_type option) "SUB_COMMAND_GROUP" then
      fun store => loadSubcommandGroup store (SlashSubcommand.name command) pino option
    else ret tt) store.

Definition loadUserCommand (store : CommandStore) (pino : LoggerFactory)
    (command : UserCommand.t) : Outcome unit * CommandStore :=
  (let key := createKey ["usr"; UserCommand.name command] in
   let logger := pino "user" key in
   let setup := or_default (UserCommand.setup command) in
   let execute : GenericHandler := fun ctx =>
     deps <- call_setup setup ;;
     call (UserCommand.execute command) deps ctx in
   set key (CommandModule.mk execute logger)) store.

Definition loadMessageCommand (store : CommandStore) (pino : LoggerFactory)
    (command : MessageCommand.t) : Outcome unit * CommandStore :=
  (let key := createKey ["msg"; MessageCommand.name command] in
   let logger := pino "message" key in
   let setup := or_default (MessageCommand.setup command) in
   let execute : GenericHandler := fun ctx =>
     deps <- call_setup setup ;;
     call (MessageCommand.execute command) deps ctx in
   set key (CommandModule.mk execute logger)) store.


(** ** Event listeners *)

Definition unloadEvent (store : EventStore) (client : Client) (key : string)
    (logger : option Logger) : Async EventStore :=
  if negb (has store key) then
    log_opt logger LWarn (MText "Tried to unload an event that wasn't saved!") ;;
    ret store
  else
    match store !! key with
    | None => throw (TypeError "Cannot read properties of undefined (reading 'name')")
    | Some event =>
        EventEmitter.off client (EventModule.name event)
          (fn_ref (EventModule.execute event)) ;;
        log_opt logger LInfo
          (MText ("Unloaded " +:+ quoted (EventModule.name event) +:+ " listener!")) ;;
        ret store
    end.

(** The listener body that [loadEvent] builds around the raw handler. *)
Definition event_execute (client : Client) (_logger : Logger) (setup : Setup)
    (event : Event.t) (args : list Value) : Async unit :=
  reqId <- randomUUID ;;
  let logger := child _logger reqId in
  try_catch
    (deps <- call_setup setup ;;
     log logger LInfo
       (MText ("Running handler for " +:+ quoted (Event.name event) +:+ "...")) ;;
     endTimer <- timer ;;
     modify (add_call (CallExecute deps)) ;;
     run_user (Event.execute event deps (mkEventContext client logger) args) ;;
     responseTime <- endTimer ;;
     log logger LInfo
       (MTimed responseTime
          ("Successfully ran handler for " +:+ quoted (Event.name event) +:+ ".")))
    (fun error =>
     log _logger LInfo
       (MText ("Handler for " +:+ quoted (Event.name event)
               +:+ " did not run successfully.")) ;;
     log logger LError (MText "An unexpected error has occured!") ;;
     log logger LError (MValue error)).

Definition loadEvent (store : EventStore) (client : Client) (key : string)
    (pino : LoggerFactory) (event : Event.t) : Async EventStore :=
  let name := Event.name event in
  let _logger := pino "event" name in
  let setup := or_default (Event.setup event) in
  execute <- closure (event_execute client _logger setup event) ;;
  (if has store key then
     match store !! Event.name event with
     | None => throw (TypeError "Cannot read properties of undefined (reading 'execute')")
     | Some oldListener =>
         EventEmitter.off client key (fn_ref (EventModule.execute oldListener))
     end
   else ret tt) ;;
  let store := <[key := EventModule.mk name execute _logger]> store in
  (if Event.once event
   then EventEmitter.once client name (fn_ref execute)
   else EventEmitter.on client name (fn_ref execute)) ;;
  ret store.

(** ** Lifecycle scripts *)

Record ScriptContext : Type := mkScriptContext {
  sc_client : Client;
  sc_logger : Logger
}.

(** What a script file evaluates to: a module that may export the load
    hook, which may return a cleanup function. *)
Record ScriptModule : Type := mkScript {
  chooksOnLoad : option (ScriptContext -> User (option (User unit)))
}.

Section Scripts.

(** [relative] of [node:path]. *)
Variable relative : string -> string -> string.

(** [import(target)]: evaluating the script file. *)
Variable import : string -> User ScriptModule.

Definition unloadScript (store : ScriptStore) (logger : Logger) (root : string)
    (file : SourceMap.t) : Async ScriptStore :=
  let relpath := relative root (SourceMap.source file) in
  if negb (has store relpath) then ret store
  else
    try_catch
      (match store !! relpath with
       | None => throw (TypeError "cleanup is not a function")
       | Some cleanup => modify (add_call CallCleanup) ;; run_user cleanup
       end)
      (fun error =>
       log logger LError
         (MText ("Cleanup function at " +:+ relpath +:+ " threw an error!")) ;;
       log logger LError (MValue error)) ;;
    ret store.

Definition loadScript (store : ScriptStore) (client : Client)
    (pino : LoggerFactory) (root : string) (file : SourceMap.t)
  : Async ScriptStore :=
  let relpath := relative root (SourceMap.source file) in
  script <- run_user (import (SourceMap.target file)) ;;
  match chooksOnLoad script with
  | None => ret store
  | Some onLoad =>
      let logger := pino "script" relpath in
      try_catch
        (cleanup <- run_user (onLoad (mkScriptContext client logger)) ;;
         match cleanup with
         | Some f => ret (<[relpath := f]> store)
         | None => ret store
         end)
        (fun error =>
         log logger LError (MValue error) ;;
         log logger LError (MText "Failed to run setup script!") ;;
         ret store)
  end.

End Scripts.

(** ** Observations used by the statements *)

(** What a call returned, or [fallback] when it threw. *)
Definition returned {A} (fallback : A) (o : Outcome A) : A :=
  match o with Ok a => a | Throw _ => fallback end.

(** What a run added to a list that only grows at its end. *)
Definition added {A} (before after : list A) : list A :=
  drop (length before) after.

Definition is_setup (c : Call) : bool :=
  match c with CallSetup => true | _ => false end.

Definition is_execute (c : Call) : bool :=
  match c with CallExecute _ => true | _ => false end.

Definition is_cleanup (c : Call) : bool :=
  match c with CallCleanup => true | _ => false end.

Definition is_off (c : Call) : bool :=
  match c with CallOff _ _ => true | _ => false end.

Definition count_calls (p : Call -> bool) (cs : list Call) : nat :=
  length (filter (fun c => p c = true) cs).

(** The dependency contexts the raw handlers were run with, in order. *)
Definition contexts (cs : list Call) : list Value :=
  omap (fun c => match c with CallExecute d => Some d | _ => None end) cs.

(** Invoking a compiled handler [n] times in a row with the same payload;
    the dispatcher goes on to the next invocation when one is rejected. *)
Fixpoint invoke_n {A} (n : nat) (execute : A -> Async unit) (payload : A)
  : Async unit :=
  match n with
  | O => ret tt
  | S n' =>
      try_catch (execute payload) (fun _ => ret tt) ;;
      invoke_n n' execute payload
  end.

(** The entries an event listener writes when it catches [error]. *)
Definition failure_entries (_logger : Logger) (reqId name : string)
    (error : Value) : list LogEntry :=
  [ mkEntry _logger LInfo
      (MText ("Handler for " +:+ quoted name +:+ " did not run successfully."));
    mkEntry (child _logger reqId) LError (MText "An unexpected error has occured!");
    mkEntry (child _logger reqId) LError (MValue error) ].

Definition running_entry (_logger : Logger) (reqId name : string) : LogEntry :=
  mkEntry (child _logger reqId) LInfo
    (MText ("Running handler for " +:+ quoted name +:+ "...")).

Definition set_logs (entries : list LogEntry) (w : World) : World :=
  {| ext := ext w; logs := entries; calls := calls w;
     listeners := listeners w; allocated := allocated w |}.

(** A handler whose every run makes exactly one call to [setup]. *)
Definition one_setup_per_run {A} (execute : A -> Async unit) : Prop :=
  forall payload w, exists new,
    calls (snd (execute payload w)) = calls w ++ new
    /\ count_calls is_setup new = 1.

(** The closure every command loader builds, written once: the loaders'
    six closures are this one at their own [setup] and raw handler. *)
Definition command_envelope (setup : Setup) (raw : option Handler) : GenericHandler :=
  fun ctx =>
    deps <- call_setup setup ;;
    call_member raw deps ctx.

(** The [setup] and raw handler of a definition, as the loaders read them. *)
Definition Source : Type := (option Setup * option Handler)%type.

(** A stored command handler is the loaders' closure around one of the
    given sources. *)
Definition compiled_from (sources : list Source) (m : CommandModule.t) : Prop :=
  exists setup raw,
    In (setup, raw) sources
    /\ CommandModule.execute m = command_envelope (or_default setup) raw.

(** Every entry of [store'] was already in [store] or satisfies [P]. *)
Definition writes_only (P : CommandModule.t -> Prop) (store store' : CommandStore)
  : Prop :=
  forall k m, store' !! k = Some m -> store !! k = Some m \/ P m.

(** A piece of user code that leaves the user program's heap as it was. *)
Definition keeps_heap {A} (f : User A) : Prop :=
  forall e, heap (snd (f e)) = heap e.

(** [c], [c + 1], ... : [n] consecutive numbers as values. *)
Fixpoint count_from (c : Z) (n : nat) : list Value :=
  match n with
  | O => []
  | S n' => VNum c :: count_from (c + 1) n'
  end.

(** A handler that, with the counter at [c], calls [setup] once and runs
    the raw handler once with [c] as its dependency context, leaving the
    counter at [c + 1]. *)
Definition counts_up {A} (execute : A -> Async unit) : Prop :=
  forall payload w c,
    heap (ext w) = VNum c ->
    calls (snd (execute payload w)) = calls w ++ [CallSetup; CallExecute (VNum c)]
    /\ heap (ext (snd (execute payload w))) = VNum (c + 1).

(** The key [k], once stored, is still stored: loaders only add and replace
    entries. *)
Definition keeps_key (k : string) (s s' : CommandStore) : Prop :=
  is_Some (s !! k) -> is_Some (s' !! k).

(** The exported command loaders, as one family. *)
Inductive Loader : Type :=
| LoadSlashCommand (pino : LoggerFactory) (command : SlashCommand.t)
| LoadSlashSubcommand (pino : LoggerFactory) (command : SlashSubcommand.t)
| LoadUserCommand (pino : LoggerFactory) (command : UserCommand.t)
| LoadMessageCommand (pino : LoggerFactory) (command : MessageCommand.t).

Definition run_loader (l : Loader) (store : CommandStore)
  : Outcome unit * CommandStore :=
  match l with
  | LoadSlashCommand pino command => loadSlashCommand store pino command
  | LoadSlashSubcommand pino command => loadSlashSubcommand store pino command
  | LoadUserCommand pino command => loadUserCommand store pino command
  | LoadMessageCommand pino command => loadMessageCommand store pino command
  end.

(** The definitions a loader compiles: the command itself, its subcommands
    and the options that declare an autocomplete handler. *)
Definition autocomplete_sources (options : option (list Option)) : list Source :=
  map (fun o => (opt_setup o, opt_autocomplete o)) (getAutocompletes options).

Definition subcommand_sources (subcommand : Option) : list Source :=
  (opt_setup subcommand, opt_execute subcommand)
  :: autocomplete_sources (opt_options subcommand).

Definition group_sources (group : Option) : list Source :=
  match opt_options group with
  | Some subcommands => flat_map subcommand_sources subcommands
  | None => []
  end.

Definition option_sources (option : Option) : list Source :=
  if String.eqb (opt_type option) "SUB_COMMAND" then subcommand_sources option
  else if String.eqb (opt_type option) "SUB_COMMAND_GROUP" then group_sources option
  else [].

Definition sources_of (l : Loader) : list Source :=
  match l with
  | LoadSlashCommand _ command =>
      (SlashCommand.setup command, Some (SlashCommand.execute command))
      :: autocomplete_sources (SlashCommand.options command)
  | LoadSlashSubcommand _ command =>
      flat_map option_sources (SlashSubcommand.options command)
  | LoadUserCommand _ command =>
      [(UserCommand.setup command, Some (UserCommand.execute command))]
  | LoadMessageCommand _ command =>
      [(MessageCommand.setup command, Some (MessageCommand.execute command))]
  end.

(** ** Sample inputs *)

Module Sample.

Definition pino : LoggerFactory := fun type name => mkLogger type name [].

Definition ext0 : Ext :=
  {| clock := 0; uuids := fun _ => "00000000-0000-4000-8000-000000000000";
     drawn := 0; heap := VNum 0 |}.

Definition world0 : World :=
  {| ext := ext0; logs := []; calls := []; listeners := []; allocated := 0 |}.

(** A raw handler that throws, and one that returns. *)
Definition failing : Handler := fun _ _ e => (Throw (VStr "boom"), e).
Definition quiet : Handler := fun _ _ e => (Ok tt, e).

Definition failing_setup : Setup := fun e => (Throw (VStr "no deps"), e).

(** [setup] returning a strictly incrementing counter kept on the heap. *)
Definition counter_setup : Setup := fun e =>
  match heap e with
  | VNum n =>
      (Ok (VNum n),
       {| clock := clock e; uuids := uuids e; drawn := drawn e;
          heap := VNum (n + 1) |})
  | _ => (Throw (TypeError "counter is not a number"), e)
  end.

Definition s1 : Option :=
  {| opt_name := "s1"; opt_type := "SUB_COMMAND"; opt_setup := None;
     opt_execute := None; opt_autocomplete := None; opt_options := None |}.

Definition g : Option :=
  {| opt_name := "g"; opt_type := "SUB_COMMAND_GROUP"; opt_setup := None;
     opt_execute := None; opt_autocomplete := None; opt_options := Some [s1] |}.

Definition p : SlashSubcommand.t := SlashSubcommand.mk "p" [g].

Definition ready (h : Value -> EventContext -> list Value -> User unit)
    (setup : option Setup) : Event.t :=
  Event.mk "ready" true setup h.

Definition message (h : Value -> EventContext -> list Value -> User unit) : Event.t :=
  Event.mk "messageCreate" false None h.

(** The root the sample paths are taken from: the empty path, which
    [node:path] resolves to the working directory. *)
Definition root : string := EmptyString.

(** [relative] of [node:path] at the root [root]: a source path given
    relative to the working directory is its own relative path there. *)
Definition same_path : string -> string -> string := fun _ source => source.

Definition file : SourceMap.t := SourceMap.mk "scripts/db.ts" "dist/scripts/db.js".

Definition who (setup : option Setup) (h : Handler) : Loader :=
  LoadUserCommand pino (UserCommand.mk "who" setup h).

(** A cleanup store holding one cleanup function that returns. *)
Definition cleanups : ScriptStore := {[ "scripts/db.ts" := fun e => (Ok tt, e) ]}.

Definition listener : Value -> EventContext -> list Value -> User unit :=
  fun _ _ _ e => (Ok tt, e).

Definition failing_listener : Value -> EventContext -> list Value -> User unit :=
  fun _ _ _ e => (Throw (VStr "boom"), e).

End Sample.


(** ** The interaction listener of the start script *)

Module Start.

(** An interaction as the listener reads it. *)
Record Interaction : Type := mkInteraction {
  isCommand : bool;
  commandName : string
}.

(** The library's [fetch], handed on to the handlers. *)
Inductive Fetch : Type := LibFetch.

Record CommandContext : Type := mkContext {
  cc_client : Client;
  cc_fetch : Fetch;
  cc_logger : Logger;
  cc_interaction : Interaction
}.

Record BaseSlashCommand : Type := mkCommand {
  name : string;
  execute : CommandContext -> User unit
}.

(** Modelled from the spec: [createTimer] is imported from the [utils]
    directory, which is not part of the sources at hand.  As the spec's
    timing step it records a start timestamp and returns the function that
    yields the elapsed milliseconds. *)
Definition createTimer : Async (Async Z) :=
  start <- gets (fun w => clock (ext w)) ;;
  ret (gets (fun w => (clock (ext w) - start)%Z)).

Section Listener.

(** [createLogger] of the library and [Number.prototype.toLocaleString]. *)
Variable createLogger : string -> Logger.
Variable toLocaleString : Z -> string.

Definition logger : Logger := createLogger "[cli] Commands".

(** The closure [createListener] returns, run on the contents the store
    has when the interaction arrives.  The library's [CommandStore] class is
    not among the sources at hand; it is read as the map from names to
    commands that its [get] and [set] present. *)
Definition listener (client : Client) (store : gmap string BaseSlashCommand)
    (interaction : Interaction) : Async unit :=
  log logger LDebug (MText "Interaction received.") ;;
  if negb (isCommand interaction) then
    log logger LDebug (MText "Interaction is not a command.")
  else
    let commandName := commandName interaction in
    match store !! commandName with
    | None =>
        log logger LWarn
          (MText ("Command " +:+ quoted commandName
                  +:+ " was recieved, but no handler was present!"))
    | Some command =>
        try_catch
          (log logger LInfo
             (MText ("Executing command " +:+ quoted commandName +:+ "...")) ;;
           stopTimer <- createTimer ;;
           run_user
             (execute command
                (mkContext client LibFetch
                   (createLogger ("[commands] " +:+ commandName)) interaction)) ;;
           elapsed <- stopTimer ;;
           log logger LSuccess
             (MText ("Finished executing command " +:+ quoted commandName
                     +:+ ". Time took: " +:+ toLocaleString elapsed +:+ "ms")))
          (fun error =>
           log logger LError
             (MText ("Failed to execute command " +:+ quoted commandName +:+ "!")) ;;
           log logger LError (MValue error))
    end.

Definition createListener (client : Client)
  : Async (gmap string BaseSlashCommand -> Interaction -> Async unit) :=
  log logger LSuccess (MText "Slash command listener created.") ;;
  ret (listener client).

End Listener.

End Start.

(** ** The command line entry *)

Module Chooks.

Inductive Script : Type := Dev | Register | Build | StartApp.

(** [args[0] === name] *)
Definition first_is (args : list string) (name : string) : bool :=
  match args with
  | a :: _ => String.eqb a name
  | [] => false
  end.

(** The scripts the entry file starts, in order, for the process
    arguments [argv]: the four tests follow one another, none is an
    [else] of another. *)
Definition started (argv : list string) : list Script :=
  let args := drop 2 argv in
  (if Nat.eqb (length args) 0 then [Dev] else [])
  ++ (if first_is args "register" then [Register] else [])
  ++ (if first_is args "build" then [Build] else [])
  ++ (if first_is args "start" then [StartApp] else []).

End Chooks.

(** ** Further observations and sample inputs *)

(** The keys [loadAutocompletes] writes for a list of options. *)
Definition autocomplete_keys (parentKey : string) (options : option (list Option))
  : list string :=
  map (fun o => createKey ["auto"; parentKey; opt_name o]) (getAutocompletes options).

(** No listener of the list is attached for [name] with function [fn]. *)
Definition unattached (name : string) (fn : nat) (ls : list ListenerEntry) : Prop :=
  Forall (fun l => EventEmitter.matches name fn l = false) ls.

(** The attaching call [loadEvent] makes, by the [once] flag. *)
Definition attach_call (event : Event.t) (fn : nat) : Call :=
  if Event.once event
  then CallOnce (Event.name event) fn
  else CallOn (Event.name event) fn.

(** Every subcommand group among the options carries its list of
    subcommands. *)
Definition groups_have_options (options : list Option) : Prop :=
  Forall (fun o => opt_type o = "SUB_COMMAND_GROUP" -> is_Some (opt_options o)) options.

Module Demo.

Definition createLogger : string -> Logger := fun name => mkLogger "cli" name [].

Definition toLocaleString : Z -> string := fun _ => "0".

Definition ping : Start.BaseSlashCommand :=
  Start.mkCommand "ping" (fun _ e => (Ok tt, e)).

Definition crash : Start.BaseSlashCommand :=
  Start.mkCommand "crash" (fun _ e => (Throw (VStr "boom"), e)).

Definition commands : gmap string Start.BaseSlashCommand :=
  <["crash" := crash]> {[ "ping" := ping ]}.

(** A closing function that moves the clock on, to tell it apart. *)
Definition close_db : User unit := fun e =>
  (Ok tt, {| clock := clock e + 1; uuids := uuids e; drawn := drawn e; heap := heap e |}).

(** A script whose load hook returns [close_db]. *)
Definition db_script : string -> User ScriptModule := fun _ e =>
  (Ok (mkScript (Some (fun _ e' => (Ok (Some close_db), e')))), e).

(** A script whose load hook throws. *)
Definition broken_script : string -> User ScriptModule := fun _ e =>
  (Ok (mkScript (Some (fun _ e' => (Throw (VStr "no database"), e')))), e).

(** A script file without a load hook. *)
Definition plain_script : string -> User ScriptModule := fun _ e =>
  (Ok (mkScript None), e).

(** A file that cannot be evaluated. *)
Definition missing_script : string -> User ScriptModule := fun _ e =>
  (Throw (VError "Error" "Cannot find module"), e).

Definition autocomplete_option (name : string) : Option :=
  mkOption name "STRING" None None (Some Sample.quiet) None.

Definition plain_option (name : string) : Option :=
  mkOption name "STRING" None None None None.

End Demo.

(** * Properties *)

Section KeyFacts.

Lemma has_sep_app (a b : string) :
  has_sep (a +:+ b) = has_sep a || has_sep b.
Proof.
  induction a as [|c a IH]; simpl; [reflexivity|].
  rewrite IH. apply orb_assoc.
Qed.

Lemma has_sep_joined (a rest : string) :
  has_sep (a +:+ sep_string +:+ rest) = true.
Proof.
  rewrite !has_sep_app. simpl. apply orb_true_r.
Qed.

(** Two joined strings with separator-free heads agree on the head and on
    what follows the first separator. *)
Lemma split_at_sep (a b r1 r2 : string) :
  has_sep a = false -> has_sep b = false ->
  a +:+ sep_string +:+ r1 = b +:+ sep_string +:+ r2 ->
  a = b /\ r1 = r2.
Proof.
  revert b. induction a as [|c a IH]; intros [|d b] Ha Hb Heq; simpl in *.
  - inversion Heq. auto.
  - inversion Heq as [[Hc Hr]]. subst d.
    unfold sep in Hb. rewrite Ascii.eqb_refl in Hb. discriminate.
  - inversion Heq as [[Hc Hr]]. subst c.
    unfold sep in Ha. rewrite Ascii.eqb_refl in Ha. discriminate.
  - inversion Heq as [[Hc Hr]]. subst d.
    apply orb_false_elim in Ha as [_ Ha].
    apply orb_false_elim in Hb as [_ Hb].
    destruct (IH b Ha Hb Hr) as [-> ->]. auto.
Qed.

Lemma concat_cons2 (x y : string) (l : list string) :
  String.concat sep_string (x :: y :: l)
  = x +:+ sep_string +:+ String.concat sep_string (y :: l).
Proof. reflexivity. Qed.

(** Joining is injective on non-empty lists of separator-free strings. *)
Lemma createKey_inj (l1 l2 : list string) :
  l1 <> [] -> l2 <> [] ->
  Forall (fun s => has_sep s = false) l1 ->
  Forall (fun s => has_sep s = false) l2 ->
  createKey l1 = createKey l2 -> l1 = l2.
Proof.
  unfold createKey. revert l2.
  induction l1 as [|x l1 IH]; intros l2 N1 N2 F1 F2 Heq; [congruence|].
  destruct l2 as [|y l2]; [congruence|].
  inversion F1 as [|? ? Hx F1']; subst.
  inversion F2 as [|? ? Hy F2']; subst.
  destruct l1 as [|x' l1], l2 as [|y' l2].
  - simpl in Heq. congruence.
  - rewrite concat_cons2 in Heq.
    change (String.concat sep_string [x]) with x in Heq. subst x.
    rewrite has_sep_joined in Hx. discriminate.
  - rewrite concat_cons2 in Heq.
    change (String.concat sep_string [y]) with y in Heq. subst y.
    rewrite has_sep_joined in Hy. discriminate.
  - rewrite !concat_cons2 in Heq.
    destruct (split_at_sep _ _ _ _ Hx Hy Heq) as [-> Hrest].
    f_equal. apply IH; auto; congruence.
Qed.

Lemma append_cancel_l (a b c : string) : a +:+ b = a +:+ c -> b = c.
Proof.
  induction a as [|ch a IH]; simpl; [auto|]. intros [= H]. auto.
Qed.

Lemma append_nil_r (a : string) : a +:+ EmptyString = a.
Proof.
  induction a as [|ch a IH]; [reflexivity|]. exact (f_equal (String ch) IH).
Qed.

(** A key is never equal to the same key with more segments appended. *)
Lemma createKey_longer (kind : string) (segment : string) (more : string) :
  createKey [kind; segment +:+ sep_string +:+ more] <> createKey [kind; segment].
Proof.
  unfold createKey. cbn [String.concat]. intros H.
  apply append_cancel_l, append_cancel_l in H.
  assert (H' : segment +:+ sep_string +:+ more = segment +:+ EmptyString)
    by (rewrite append_nil_r; exact H).
  apply append_cancel_l in H'. discriminate.
Qed.

(** The loaders build a key in two steps; the result is the flat key. *)
Lemma createKey_nested (kind : string) (segments : list string) :
  segments <> [] ->
  createKey [kind; createKey segments] = buildKey kind segments.
Proof.
  intros Hne. destruct segments as [|x rest]; [congruence|]. reflexivity.
Qed.

End KeyFacts.

(** ** Running the envelopes *)

Ltac unfold_js :=
  unfold command_envelope, event_execute, call_setup, call_member, call,
    timer, randomUUID, log, log_opt, run_user, try_catch, bind, ret, throw,
    modify, gets in *.

Section EnvelopeFacts.

Lemma added_app {A} (before new : list A) : added before (before ++ new) = new.
Proof. unfold added. apply drop_app_length. Qed.

Lemma added_same {A} (l : list A) : added l l = [].
Proof. unfold added. apply drop_all. Qed.

Lemma count_calls_app (p : Call -> bool) (a b : list Call) :
  count_calls p (a ++ b) = count_calls p a + count_calls p b.
Proof. unfold count_calls. rewrite filter_app, length_app. reflexivity. Qed.

Lemma contexts_app (a b : list Call) : contexts (a ++ b) = contexts a ++ contexts b.
Proof. unfold contexts. apply omap_app. Qed.

(** One run of a command closure, case by case. *)
Lemma command_envelope_run (setup : Setup) (raw : option Handler)
    (ctx : Value) (w : World) :
  command_envelope setup raw ctx w =
  match setup (ext w) with
  | (Throw e, x) => (Throw e, set_ext x (add_call CallSetup w))
  | (Ok deps, x) =>
      match raw with
      | None =>
          (Throw (TypeError "Cannot read properties of undefined (reading 'call')"),
           set_ext x (add_call CallSetup w))
      | Some h =>
          (fst (h deps ctx x),
           set_ext (snd (h deps ctx x))
             (add_call (CallExecute deps) (add_call CallSetup w)))
      end
  end.
Proof.
  unfold_js. simpl. destruct (setup (ext w)) as [[deps|e] x]; simpl; [|reflexivity].
  destruct raw as [h|]; simpl; [|reflexivity].
  destruct (h deps ctx x) as [o x']. reflexivity.
Qed.

(** One run of an event listener, case by case. *)
Lemma event_execute_run (client : Client) (_logger : Logger) (setup : Setup)
    (event : Event.t) (args : list Value) (w : World) :
  let reqId := uuids (ext w) (drawn (ext w)) in
  let name := Event.name event in
  event_execute client _logger setup event args w =
  match setup (draw (ext w)) with
  | (Throw e, x) =>
      (Ok tt,
       set_logs (logs w ++ failure_entries _logger reqId name e)
         (set_ext x (add_call CallSetup w)))
  | (Ok deps, x) =>
      match Event.execute event deps
              (mkEventContext client (child _logger reqId)) args x with
      | (Throw e, x') =>
          (Ok tt,
           set_logs (logs w ++ running_entry _logger reqId name
                             :: failure_entries _logger reqId name e)
             (set_ext x' (add_call (CallExecute deps) (add_call CallSetup w))))
      | (Ok _, x') =>
          (Ok tt,
           set_logs (logs w ++
                     [ running_entry _logger reqId name;
                       mkEntry (child _logger reqId) LInfo
                         (MTimed (clock x' - clock x)
                            ("Successfully ran handler for " +:+ quoted name +:+ ".")) ])
             (set_ext x' (add_call (CallExecute deps) (add_call CallSetup w))))
      end
  end.
Proof.
  intros reqId name. unfold_js. simpl.
  destruct (setup (draw (ext w))) as [[deps|e] x]; simpl.
  - destruct (Event.execute event deps _ args x) as [[[]|e] x']; simpl.
    + unfold set_logs, set_ext, add_log, add_call; simpl.
      rewrite <- !app_assoc. reflexivity.
    + unfold set_logs, set_ext, add_log, add_call, failure_entries; simpl.
      rewrite <- !app_assoc. reflexivity.
  - unfold set_logs, set_ext, add_log, add_call, failure_entries; simpl.
    rewrite <- !app_assoc. reflexivity.
Qed.

(** An event listener never rejects. *)
Lemma event_execute_resolves client _logger setup event args w :
  fst (event_execute client _logger setup event args w) = Ok tt.
Proof.
  rewrite event_execute_run.
  destruct (setup _) as [[deps|e] x]; [|reflexivity].
  destruct (Event.execute _ _ _ _ _) as [[[]|e] x']; reflexivity.
Qed.

Lemma command_envelope_one_setup setup raw :
  one_setup_per_run (command_envelope setup raw).
Proof.
  intros ctx w. rewrite command_envelope_run.
  destruct (setup (ext w)) as [[deps|e] x].
  - destruct raw as [h|].
    + exists [CallSetup; CallExecute deps]. simpl. rewrite <- app_assoc. auto.
    + exists [CallSetup]. auto.
  - exists [CallSetup]. auto.
Qed.

Lemma event_execute_one_setup client _logger setup event :
  one_setup_per_run (event_execute client _logger setup event).
Proof.
  intros args w. rewrite event_execute_run.
  destruct (setup _) as [[deps|e] x].
  - destruct (Event.execute _ _ _ _ _) as [[[]|e] x'];
      exists [CallSetup; CallExecute deps]; simpl; rewrite <- app_assoc; auto.
  - exists [CallSetup]. auto.
Qed.

Lemma invoke_n_setups {A} (execute : A -> Async unit) (payload : A) :
  one_setup_per_run execute ->
  forall n w, exists new,
    calls (snd (invoke_n n execute payload w)) = calls w ++ new
    /\ count_calls is_setup new = n.
Proof.
  intros Hone. induction n as [|n IH]; intros w.
  - exists []. simpl. rewrite app_nil_r. auto.
  - destruct (Hone payload w) as (new1 & Hc1 & Hn1).
    simpl. unfold bind, try_catch, ret.
    destruct (execute payload w) as [[[]|e] w1]; simpl in *.
    + destruct (IH w1) as (new2 & Hc2 & Hn2).
      exists (new1 ++ new2).
      rewrite Hc2, Hc1, <- app_assoc, count_calls_app, Hn1, Hn2. auto.
    + destruct (IH w1) as (new2 & Hc2 & Hn2).
      exists (new1 ++ new2).
      rewrite Hc2, Hc1, <- app_assoc, count_calls_app, Hn1, Hn2. auto.
Qed.

Lemma count_from_ge c n v : v ∈ count_from c n -> exists k, v = VNum k /\ (c <= k)%Z.
Proof.
  revert c. induction n as [|n IH]; intros c; simpl.
  - intros H. inversion H.
  - intros H. apply elem_of_cons in H as [->|H].
    + exists c. split; [reflexivity|lia].
    + destruct (IH _ H) as (k & -> & Hk). exists k. split; [reflexivity|lia].
Qed.

Lemma NoDup_count_from c n : NoDup (count_from c n).
Proof.
  revert c. induction n as [|n IH]; intros c; simpl.
  - apply NoDup_nil_2.
  - apply NoDup_cons_2; [|apply IH].
    intros Hin. apply count_from_ge in Hin as (k & [= <-] & Hk). lia.
Qed.

Lemma length_count_from c n : length (count_from c n) = n.
Proof. revert c. induction n as [|n IH]; intros c; simpl; [|rewrite IH]; reflexivity. Qed.

Lemma invoke_n_counts {A} (execute : A -> Async unit) (payload : A) :
  counts_up execute ->
  forall n w c, heap (ext w) = VNum c ->
    exists new,
      calls (snd (invoke_n n execute payload w)) = calls w ++ new
      /\ contexts new = count_from c n.
Proof.
  intros Hup. induction n as [|n IH]; intros w c Hc.
  - exists []. simpl. rewrite app_nil_r. auto.
  - destruct (Hup payload w c Hc) as [Hc1 Hh1].
    simpl. unfold bind, try_catch, ret.
    destruct (execute payload w) as [[[]|e] w1]; simpl in *;
      destruct (IH w1 (c + 1)%Z Hh1) as (new2 & Hc2 & Hn2);
      exists ([CallSetup; CallExecute (VNum c)] ++ new2);
      rewrite Hc2, Hc1, <- app_assoc, contexts_app, Hn2; auto.
Qed.

Lemma command_envelope_counts_up (raw : Handler) :
  (forall deps ctx, keeps_heap (raw deps ctx)) ->
  counts_up (command_envelope Sample.counter_setup (Some raw)).
Proof.
  intros Hraw ctx w c Hc. rewrite command_envelope_run.
  unfold Sample.counter_setup. rewrite Hc. cbn [fst snd].
  split.
  - simpl. rewrite <- app_assoc. reflexivity.
  - simpl. rewrite Hraw. reflexivity.
Qed.

Lemma event_execute_counts_up client _logger (event : Event.t) :
  (forall deps ctx args, keeps_heap (Event.execute event deps ctx args)) ->
  counts_up (event_execute client _logger Sample.counter_setup event).
Proof.
  intros Hraw args w c Hc. rewrite event_execute_run.
  unfold Sample.counter_setup. cbn [draw heap]. rewrite Hc.
  match goal with |- context [Event.execute event ?d ?c ?a ?x] =>
    pose proof (Hraw d c a x) as Hk;
    destruct (Event.execute event d c a x) as [[[]|e] x'] end;
    simpl in *; rewrite <- app_assoc; auto.
Qed.

End EnvelopeFacts.

(** ** What the command loaders write *)

Section LoaderFacts.

Lemma for_of_app {S A} (xs ys : list A) (body : A -> M S unit) (s : S) :
  for_of (xs ++ ys) body s = (for_of xs body ;; for_of ys body) s.
Proof.
  revert s. induction xs as [|x xs IH]; intros s; simpl.
  - reflexivity.
  - unfold bind in *. destruct (body x s) as [[[]|e] s']; [apply IH|reflexivity].
Qed.

(** A loop whose body keeps an invariant relation on the store keeps it. *)
Lemma for_of_invariant {S A} (R : S -> S -> Prop) (body : A -> M S unit) :
  (forall s, R s s) ->
  (forall s1 s2 s3, R s1 s2 -> R s2 s3 -> R s1 s3) ->
  (forall x s, R s (snd (body x s))) ->
  forall xs s, R s (snd (for_of xs body s)).
Proof.
  intros Hrefl Htrans Hbody. induction xs as [|x xs IH]; intros s; simpl.
  - apply Hrefl.
  - unfold bind. pose proof (Hbody x s) as Hx.
    destruct (body x s) as [[[]|e] s']; simpl in *; [|exact Hx].
    eapply Htrans; [exact Hx|apply IH].
Qed.

Lemma for_of_ok {S A} (body : A -> M S unit) :
  (forall x s, fst (body x s) = Ok tt) ->
  forall xs s, fst (for_of xs body s) = Ok tt.
Proof.
  intros Hbody. induction xs as [|x xs IH]; intros s; simpl; [reflexivity|].
  unfold bind. pose proof (Hbody x s) as Hx.
  destruct (body x s) as [[[]|e] s']; simpl in *; [apply IH|discriminate].
Qed.

(** The same, when the step is only known for the elements of the list. *)
Lemma for_of_invariant_in {S A} (R : S -> S -> Prop) (body : A -> M S unit)
    (xs : list A) :
  (forall s, R s s) ->
  (forall s1 s2 s3, R s1 s2 -> R s2 s3 -> R s1 s3) ->
  (forall x s, In x xs -> R s (snd (body x s))) ->
  forall s, R s (snd (for_of xs body s)).
Proof.
  intros Hrefl Htrans. induction xs as [|x xs IH]; intros Hbody s; simpl.
  - apply Hrefl.
  - unfold bind. pose proof (Hbody x s (or_introl eq_refl)) as Hx.
    destruct (body x s) as [[[]|e] s']; simpl in *; [|exact Hx].
    eapply Htrans; [exact Hx|]. apply IH. intros y s0 Hy. apply Hbody. auto.
Qed.

Lemma writes_only_refl P store : writes_only P store store.
Proof. intros k m H. auto. Qed.

Lemma writes_only_trans P s1 s2 s3 :
  writes_only P s1 s2 -> writes_only P s2 s3 -> writes_only P s1 s3.
Proof.
  intros H12 H23 k m H. destruct (H23 k m H) as [H2|HP]; auto.
Qed.

Lemma writes_only_mono (P Q : CommandModule.t -> Prop) s1 s2 :
  (forall m, P m -> Q m) -> writes_only P s1 s2 -> writes_only Q s1 s2.
Proof. intros HPQ H k m Hk. destruct (H k m Hk); auto. Qed.

Lemma writes_only_set (P : CommandModule.t -> Prop) key value (store : CommandStore) :
  P value -> writes_only P store (snd (set key value store)).
Proof.
  intros HP k m. simpl. rewrite lookup_insert. case_decide.
  - intros [= <-]. auto.
  - auto.
Qed.

Lemma compiled_from_incl sources sources' m :
  incl sources sources' -> compiled_from sources m -> compiled_from sources' m.
Proof.
  intros Hincl (setup & raw & Hin & Hm). exists setup, raw. auto.
Qed.

Lemma compiled_from_member setup raw logger sources :
  In (setup, raw) sources ->
  compiled_from sources
    (CommandModule.mk (command_envelope (or_default setup) raw) logger).
Proof. intros Hin. exists setup, raw. auto. Qed.

Lemma compiled_from_call setup (h : Handler) logger sources :
  In (setup, Some h) sources ->
  compiled_from sources
    (CommandModule.mk
       (fun ctx => deps <- call_setup (or_default setup) ;; call h deps ctx) logger).
Proof. intros Hin. exists setup, (Some h). auto. Qed.

Lemma bind_writes_only P (a b : M CommandStore unit) store :
  writes_only P store (snd (a store)) ->
  (forall s, writes_only P s (snd (b s))) ->
  writes_only P store (snd ((a ;; b) store)).
Proof.
  intros Ha Hb. unfold bind. destruct (a store) as [[[]|e] s']; simpl in *; [|exact Ha].
  eapply writes_only_trans; [exact Ha|apply Hb].
Qed.

Lemma loadAutocompletes_writes store parentKey pino options :
  writes_only (compiled_from (autocomplete_sources options)) store
    (snd (loadAutocompletes store parentKey pino options)).
Proof.
  unfold loadAutocompletes.
  apply (for_of_invariant_in (writes_only (compiled_from (autocomplete_sources options)))).
  - apply writes_only_refl.
  - apply writes_only_trans.
  - intros o s Ho. apply writes_only_set, compiled_from_member.
    unfold autocomplete_sources.
    apply (in_map (fun o => (opt_setup o, opt_autocomplete o))), Ho.
Qed.

Lemma loadAutocompletes_ok store parentKey pino options :
  fst (loadAutocompletes store parentKey pino options) = Ok tt.
Proof. unfold loadAutocompletes. apply for_of_ok. reflexivity. Qed.

(** Autocomplete keys carry the [auto] tag: a key that starts with another
    letter is left as it was. *)
Lemma loadAutocompletes_other_keys store parentKey pino options c (rest : string) :
  c <> "a"%char ->
  snd (loadAutocompletes store parentKey pino options) !! String c rest
  = store !! String c rest.
Proof.
  intros Hc. unfold loadAutocompletes.
  apply (for_of_invariant (fun s s' : CommandStore =>
           s' !! String c rest = s !! String c rest)).
  - reflexivity.
  - intros s1 s2 s3 H12 H23. congruence.
  - intros o s. simpl. apply lookup_insert_ne.
    cbv [createKey String.concat String.append]. congruence.
Qed.

(** Storing a subcommand's closure and then its autocompletes, whatever
    the key prefix. *)
Lemma subcommand_step_writes (store : CommandStore) key parentKey logger pino
    (subcommand : Option) :
  writes_only (compiled_from (subcommand_sources subcommand)) store
    (snd ((set key
             (CommandModule.mk
                (command_envelope (or_default (opt_setup subcommand))
                   (opt_execute subcommand)) logger) ;;
           fun store => loadAutocompletes store parentKey pino
                          (opt_options subcommand)) store)).
Proof.
  apply bind_writes_only.
  - apply writes_only_set, compiled_from_member. left. reflexivity.
  - intros s. eapply writes_only_mono; [|apply loadAutocompletes_writes].
    intros m. apply compiled_from_incl. intros src Hsrc. right. exact Hsrc.
Qed.

Lemma loadSlashCommand_writes store pino command :
  writes_only (compiled_from (sources_of (LoadSlashCommand pino command))) store
    (snd (loadSlashCommand store pino command)).
Proof.
  unfold loadSlashCommand. apply bind_writes_only.
  - apply writes_only_set, compiled_from_call. left. reflexivity.
  - intros s. eapply writes_only_mono; [|apply loadAutocompletes_writes].
    intros m. apply compiled_from_incl. intros src Hsrc. right. exact Hsrc.
Qed.

Lemma loadSubcommand_writes store parentName pino subcommand :
  writes_only (compiled_from (subcommand_sources subcommand)) store
    (snd (loadSubcommand store parentName pino subcommand)).
Proof. unfold loadSubcommand. apply subcommand_step_writes. Qed.

Lemma loadSubcommandGroup_writes store parentName pino group :
  writes_only (compiled_from (group_sources group)) store
    (snd (loadSubcommandGroup store parentName pino group)).
Proof.
  unfold loadSubcommandGroup, group_sources.
  destruct (opt_options group) as [subs|].
  - apply (for_of_invariant_in
             (writes_only (compiled_from (flat_map subcommand_sources subs)))).
    + apply writes_only_refl.
    + apply writes_only_trans.
    + intros sub s Hsub.
      eapply writes_only_mono; [|apply subcommand_step_writes].
      intros m. apply compiled_from_incl. intros src Hsrc.
      apply in_flat_map. eauto.
  - apply writes_only_refl.
Qed.

Lemma loadSlashSubcommand_writes store pino command :
  writes_only (compiled_from (sources_of (LoadSlashSubcommand pino command))) store
    (snd (loadSlashSubcommand store pino command)).
Proof.
  unfold loadSlashSubcommand. cbn [sources_of].
  apply (for_of_invariant_in
           (writes_only (compiled_from
              (flat_map option_sources (SlashSubcommand.options command))))).
  - apply writes_only_refl.
  - apply writes_only_trans.
  - intros o s Ho.
    assert (Hsub : incl (option_sources o)
                     (flat_map option_sources (SlashSubcommand.options command))).
    { intros src Hsrc. apply in_flat_map. eauto. }
    unfold option_sources in Hsub.
    destruct (String.eqb (opt_type o) "SUB_COMMAND").
    + eapply writes_only_mono; [|apply loadSubcommand_writes].
      intros m. apply compiled_from_incl, Hsub.
    + destruct (String.eqb (opt_type o) "SUB_COMMAND_GROUP").
      * eapply writes_only_mono; [|apply loadSubcommandGroup_writes].
        intros m. apply compiled_from_incl, Hsub.
      * apply writes_only_refl.
Qed.

(** Every handler a command loader stores is the command closure around
    the [setup] and raw handler of one of the definitions it was given. *)
Lemma run_loader_writes (l : Loader) (store : CommandStore) :
  writes_only (compiled_from (sources_of l)) store (snd (run_loader l store)).
Proof.
  destruct l as [pino c|pino c|pino c|pino c]; cbn [run_loader].
  - apply loadSlashCommand_writes.
  - apply loadSlashSubcommand_writes.
  - apply writes_only_set, compiled_from_call. left. reflexivity.
  - apply writes_only_set, compiled_from_call. left. reflexivity.
Qed.

Lemma bind_ret_tt {S} (m : M S unit) (s : S) : (m ;; ret tt) s = m s.
Proof. unfold bind, ret. destruct (m s) as [[[]|e] s']; reflexivity. Qed.

Lemma for_of_single {S A} (x : A) (body : A -> M S unit) (s : S) :
  for_of [x] body s = body x s.
Proof. simpl. apply bind_ret_tt. Qed.

(** A group with one subcommand: one entry, then the subcommand's
    autocompletes. *)
Lemma loadSubcommandGroup_single store parentName pino group subcommand :
  opt_options group = Some [subcommand] ->
  loadSubcommandGroup store parentName pino group =
  let parentKey := createKey [parentName; opt_name group; opt_name subcommand] in
  loadAutocompletes
    (<[createKey ["cmd"; parentKey] :=
         CommandModule.mk
           (command_envelope (or_default (opt_setup subcommand))
              (opt_execute subcommand))
           (pino "subcommand" (createKey ["cmd"; parentKey]))]> store)
    parentKey pino (opt_options subcommand).
Proof.
  intros Hopts. unfold loadSubcommandGroup. rewrite Hopts, for_of_single.
  reflexivity.
Qed.

Lemma keeps_key_set k key value (s : CommandStore) :
  keeps_key k s (snd (set key value s)).
Proof.
  intros H. simpl. rewrite lookup_insert. case_decide; eauto.
Qed.

Lemma keeps_key_bind k (a b : M CommandStore unit) s :
  keeps_key k s (snd (a s)) ->
  (forall s', keeps_key k s' (snd (b s'))) ->
  keeps_key k s (snd ((a ;; b) s)).
Proof.
  intros Ha Hb. unfold bind. destruct (a s) as [[[]|e] s']; simpl in *; [|exact Ha].
  intros H. apply Hb, Ha, H.
Qed.

Lemma for_of_keeps_key {A} k (body : A -> M CommandStore unit) xs :
  (forall x s, keeps_key k s (snd (body x s))) ->
  forall s, keeps_key k s (snd (for_of xs body s)).
Proof.
  intros Hbody. apply (for_of_invariant (keeps_key k)); [| |exact Hbody].
  - intros s H. exact H.
  - intros s1 s2 s3 H12 H23 H. auto.
Qed.

Lemma loadAutocompletes_keeps_key k store parentKey pino options :
  keeps_key k store (snd (loadAutocompletes store parentKey pino options)).
Proof.
  unfold loadAutocompletes. apply for_of_keeps_key.
  intros o s. apply keeps_key_set.
Qed.

Lemma loadSlashSubcommand_keeps_key k store pino command :
  keeps_key k store (snd (loadSlashSubcommand store pino command)).
Proof.
  unfold loadSlashSubcommand. apply for_of_keeps_key. intros o s.
  destruct (String.eqb (opt_type o) "SUB_COMMAND").
  - unfold loadSubcommand. apply keeps_key_bind; [apply keeps_key_set|].
    intros s'. apply loadAutocompletes_keeps_key.
  - destruct (String.eqb (opt_type o) "SUB_COMMAND_GROUP").
    + unfold loadSubcommandGroup. destruct (opt_options o) as [subs|].
      * apply for_of_keeps_key. intros sub s'.
        apply keeps_key_bind; [apply keeps_key_set|].
        intros s''. apply loadAutocompletes_keeps_key.
      * intros H. exact H.
    + intros H. exact H.
Qed.

(** A command with subcommands never writes the key of the command itself:
    every key it writes has at least one more segment. *)
Lemma loadSlashSubcommand_command_key store pino command :
  snd (loadSlashSubcommand store pino command)
    !! createKey ["cmd"; SlashSubcommand.name command]
  = store !! createKey ["cmd"; SlashSubcommand.name command].
Proof.
  set (k := createKey ["cmd"; SlashSubcommand.name command]).
  assert (Hk : k = String "c" ("md" +:+ sep_string +:+ SlashSubcommand.name command))
    by reflexivity.
  assert (Hstep : forall (s : CommandStore) v parentKey options more,
            snd ((set (createKey ["cmd"; SlashSubcommand.name command
                                         +:+ sep_string +:+ more]) v ;;
                  fun store => loadAutocompletes store parentKey pino options) s) !! k
            = s !! k).
  { intros s v parentKey options more. unfold bind, set, modify.
    rewrite Hk, loadAutocompletes_other_keys by discriminate. rewrite <- Hk.
    apply lookup_insert_ne, createKey_longer. }
  unfold loadSlashSubcommand.
  apply (for_of_invariant (fun s s' : CommandStore => s' !! k = s !! k)).
  - reflexivity.
  - intros s1 s2 s3 H12 H23. congruence.
  - intros o s.
    destruct (String.eqb (opt_type o) "SUB_COMMAND").
    + apply (Hstep s _ _ _ (opt_name o)).
    + destruct (String.eqb (opt_type o) "SUB_COMMAND_GROUP"); [|reflexivity].
      unfold loadSubcommandGroup. destruct (opt_options o) as [subs|]; [|reflexivity].
      apply (for_of_invariant (fun s s' : CommandStore => s' !! k = s !! k)).
      * reflexivity.
      * intros s1 s2 s3 H12 H23. congruence.
      * intros sub s'.
        apply (Hstep s' _ _ _ (opt_name o +:+ sep_string +:+ opt_name sub)).
Qed.

(** Whatever else the command holds: when compilation returns, the
    subcommand of a group among its options is registered under the
    three-segment key. *)
Lemma loadSlashSubcommand_group_member store pino name before after group subcommand :
  opt_type group = "SUB_COMMAND_GROUP" ->
  opt_options group = Some [subcommand] ->
  let result :=
    loadSlashSubcommand store pino (SlashSubcommand.mk name (before ++ group :: after)) in
  fst result = Ok tt ->
  is_Some (snd result
             !! createKey ["cmd"; createKey [name; opt_name group; opt_name subcommand]]).
Proof.
  intros Htype Hopts result. subst result.
  set (k := createKey ["cmd"; createKey [name; opt_name group; opt_name subcommand]]).
  unfold loadSlashSubcommand. cbn [SlashSubcommand.options SlashSubcommand.name].
  match goal with |- context [for_of _ ?b store] => set (body := b) end.
  assert (Hbody : forall o s, keeps_key k s (snd (body o s))).
  { intros o s.
    pose proof (loadSlashSubcommand_keeps_key k s pino (SlashSubcommand.mk name [o])) as H.
    unfold loadSlashSubcommand in H.
    cbn [SlashSubcommand.options SlashSubcommand.name] in H.
    rewrite for_of_single in H. exact H. }
  assert (Hgroup : forall s, is_Some (snd (body group s) !! k)).
  { intros s. unfold body. rewrite Htype. cbn [String.eqb Ascii.eqb Bool.eqb].
    rewrite (loadSubcommandGroup_single s name pino group subcommand Hopts). cbv zeta.
    apply loadAutocompletes_keeps_key. fold k. rewrite lookup_insert_eq. eauto. }
  rewrite for_of_app. cbn [for_of]. unfold bind.
  destruct (for_of before body store) as [[[]|e] s1]; [|discriminate].
  specialize (Hgroup s1).
  destruct (body group s1) as [[[]|e] s2]; [|discriminate].
  intros _. apply (for_of_keeps_key k body after Hbody s2), Hgroup.
Qed.

(** Compiling from the empty store: every entry is a command closure
    around one of the loader's definitions. *)
Lemma compiled_has_source (l : Loader) (k : string) (m : CommandModule.t) :
  snd (run_loader l ∅) !! k = Some m -> compiled_from (sources_of l) m.
Proof.
  intros H. destruct (run_loader_writes l ∅ k m H) as [Hold|Henv]; [|exact Henv].
  rewrite lookup_empty in Hold. discriminate.
Qed.

End LoaderFacts.

(** ** Events and scripts *)

Section RegistryFacts.

Lemma has_None {V} (store : gmap string V) key :
  store !! key = None -> has store key = false.
Proof.
  intros H. unfold has. apply bool_decide_eq_false. rewrite H.
  intros [v Hv]. discriminate.
Qed.

Lemma has_Some {V} (store : gmap string V) key v :
  store !! key = Some v -> has store key = true.
Proof.
  intros H. unfold has. apply bool_decide_eq_true. rewrite H. eauto.
Qed.

(** Unloading a key that is not stored: a warning at most. *)
Lemma unloadEvent_missing (store : EventStore) client key logger w :
  store !! key = None ->
  unloadEvent store client key logger w =
  (Ok store,
   match logger with
   | Some l =>
       add_log (mkEntry l LWarn (MText "Tried to unload an event that wasn't saved!")) w
   | None => w
   end).
Proof.
  intros H. unfold unloadEvent. rewrite (has_None _ _ H). simpl.
  destruct logger; reflexivity.
Qed.

(** Unloading a stored key: one [off] with the stored name and function. *)
Lemma unloadEvent_present (store : EventStore) client key logger event w :
  store !! key = Some event ->
  unloadEvent store client key logger w =
  (Ok store,
   let name := EventModule.name event in
   let fn := fn_ref (EventModule.execute event) in
   let w1 := set_listeners (EventEmitter.remove_last name fn (listeners w))
               (add_call (CallOff name fn) w) in
   match logger with
   | Some l =>
       add_log (mkEntry l LInfo (MText ("Unloaded " +:+ quoted name +:+ " listener!"))) w1
   | None => w1
   end).
Proof.
  intros H. unfold unloadEvent. rewrite (has_Some _ _ _ H), H. simpl.
  destruct logger; reflexivity.
Qed.

Lemma remove_last_snoc name fn once ls :
  EventEmitter.remove_last name fn (ls ++ [mkListener name fn once]) = ls.
Proof.
  unfold EventEmitter.remove_last. rewrite rev_app_distr. simpl.
  unfold EventEmitter.matches. simpl.
  rewrite String.eqb_refl, Nat.eqb_refl. simpl. apply rev_involutive.
Qed.

(** Reloading under a key that is not the event's name, when nothing is
    stored under the name: the lookup of the old listener fails. *)
Lemma loadEvent_reload_other_key (store : EventStore) client key pino event old w :
  store !! key = Some old ->
  store !! Event.name event = None ->
  fst (loadEvent store client key pino event w)
  = Throw (TypeError "Cannot read properties of undefined (reading 'execute')")
  /\ listeners (snd (loadEvent store client key pino event w)) = listeners w.
Proof.
  intros Hkey Hname. unfold loadEvent, closure, bind.
  rewrite (has_Some _ _ _ Hkey), Hname. simpl. auto.
Qed.

(** Reloading under the event's own name replaces the listener. *)
Lemma loadEvent_reload_same_name (store : EventStore) client pino event old w ls once :
  store !! Event.name event = Some old ->
  listeners w
  = ls ++ [mkListener (Event.name event) (fn_ref (EventModule.execute old)) once] ->
  exists store' w',
    loadEvent store client (Event.name event) pino event w = (Ok store', w')
    /\ listeners w'
       = ls ++ [mkListener (Event.name event) (allocated w) (Event.once event)]
    /\ (fn_ref <$> (EventModule.execute <$> store' !! Event.name event))
       = Some (allocated w).
Proof.
  intros Hname Hls. unfold loadEvent, closure, bind.
  rewrite (has_Some _ _ _ Hname), Hname.
  unfold EventEmitter.off, EventEmitter.once, EventEmitter.on, bind, modify, ret.
  simpl. rewrite Hls, remove_last_snoc.
  destruct (Event.once event); simpl; eexists _, _;
    (split; [reflexivity|]); simpl; rewrite lookup_insert_eq; auto.
Qed.

(** A first load attaches one listener and stores it under the key. *)
Lemma loadEvent_first (store : EventStore) client key pino event w :
  store !! key = None ->
  exists store' w',
    loadEvent store client key pino event w = (Ok store', w')
    /\ listeners w'
       = listeners w ++ [mkListener (Event.name event) (allocated w) (Event.once event)]
    /\ store' !! key
       = Some (EventModule.mk (Event.name event)
                 (mkFn (allocated w)
                    (event_execute client (pino "event" (Event.name event))
                       (or_default (Event.setup event)) event))
                 (pino "event" (Event.name event)))
    /\ logs w' = logs w /\ ext w' = ext w.
Proof.
  intros Hkey. unfold loadEvent, closure, bind. rewrite (has_None _ _ Hkey).
  unfold EventEmitter.once, EventEmitter.on, bind, modify, ret. simpl.
  destruct (Event.once event); simpl; eexists _, _;
    (split; [reflexivity|]); simpl; rewrite lookup_insert_eq; auto.
Qed.

(** Whenever [loadEvent] returns, the listener it built is stored under
    the key. *)
Lemma loadEvent_stores (store store' : EventStore) client key pino event w w' :
  loadEvent store client key pino event w = (Ok store', w') ->
  store' !! key
  = Some (EventModule.mk (Event.name event)
            (mkFn (allocated w)
               (event_execute client (pino "event" (Event.name event))
                  (or_default (Event.setup event)) event))
            (pino "event" (Event.name event))).
Proof.
  unfold loadEvent, closure, bind.
  unfold EventEmitter.off, EventEmitter.once, EventEmitter.on, bind, modify, ret, throw.
  destruct (has store key); simpl.
  - destruct (store !! Event.name event) as [old|]; simpl; [|discriminate].
    destruct (Event.once event); simpl; intros [= <- <-]; apply lookup_insert_eq.
  - destruct (Event.once event); simpl; intros [= <- <-]; apply lookup_insert_eq.
Qed.

Section ScriptFacts.

Variable relative : string -> string -> string.

Lemma unloadScript_missing (store : ScriptStore) logger root file w :
  store !! relative root (SourceMap.source file) = None ->
  unloadScript relative store logger root file w = (Ok store, w).
Proof.
  intros H. unfold unloadScript. rewrite (has_None _ _ H). reflexivity.
Qed.

Lemma unloadScript_present (store : ScriptStore) logger root file
    (cleanup : User unit) w :
  let relpath := relative root (SourceMap.source file) in
  store !! relpath = Some cleanup ->
  unloadScript relative store logger root file w =
  (Ok store,
   let w1 := set_ext (snd (cleanup (ext w))) (add_call CallCleanup w) in
   match fst (cleanup (ext w)) with
   | Ok _ => w1
   | Throw error =>
       add_log (mkEntry logger LError (MValue error))
         (add_log
            (mkEntry logger LError
               (MText ("Cleanup function at " +:+ relpath +:+ " threw an error!")))
            w1)
   end).
Proof.
  intros relpath H. subst relpath. unfold unloadScript. cbv zeta.
  rewrite (has_Some _ _ _ H), H. unfold_js. simpl.
  destruct (cleanup (ext w)) as [[[]|e] x]; reflexivity.
Qed.

End ScriptFacts.

End RegistryFacts.

(** C8: the key builder is deterministic and injective: over kind tags and
    segments that are valid segments (non-empty, and free of the separator,
    which the spec rules out inside a segment), two tuples give the same key
    exactly when they are the same tuple. *)
Theorem buildKey_injective (kind1 kind2 : string) (segs1 segs2 : list string) :
  segment_ok kind1 -> segment_ok kind2 ->
  Forall segment_ok segs1 -> Forall segment_ok segs2 ->
  buildKey kind1 segs1 = buildKey kind2 segs2 <-> (kind1, segs1) = (kind2, segs2).
Proof.
  intros [_ H1] [_ H2] F1 F2. split.
  - intros Heq. unfold buildKey in Heq.
    apply createKey_inj in Heq; [congruence|discriminate|discriminate| |].
    + constructor; [exact H1|]. eapply Forall_impl; [exact F1|]. intros s [_ Hs]. exact Hs.
    + constructor; [exact H2|]. eapply Forall_impl; [exact F2|]. intros s [_ Hs]. exact Hs.
  - intros Heq. inversion Heq. reflexivity.
Qed.

Lemma buildKey_injective_witness :
  buildKey "cmd" ["p"; "g"; "s1"] = buildKey "auto" ["p"; "g"]
  <-> ("cmd", ["p"; "g"; "s1"]) = ("auto", ["p"; "g"]).
Proof.
  apply buildKey_injective.
  - split; [discriminate | reflexivity].
  - split; [discriminate | reflexivity].
  - repeat constructor; discriminate.
  - repeat constructor; discriminate.
Defined.

(** The separator-free condition on segments is what carries injectivity:
    a segment that holds the separator collides with the split segments. *)
Remark buildKey_collision_with_separator :
  buildKey "cmd" ["a:b"] = buildKey "cmd" ["a"; "b"].
Proof. reflexivity. Qed.

(** C3: compiling the slash command [p] whose options are the subcommand
    group [g] holding the subcommand [s1] succeeds, stores the subcommand's
    handler at [cmd:p:g:s1], and writes nothing at [cmd:p:g] nor at [cmd:p]:
    both keys are as they were, hence absent when compilation starts from an
    empty store.  With further options around the group, a compilation that
    returns still has registered [cmd:p:g:s1] and left [cmd:p] as it was. *)
Theorem subcommand_group_keys (store : CommandStore) (pino : LoggerFactory)
    (gsetup ssetup : option Setup) (gexecute gauto sexecute sauto : option Handler)
    (soptions : option (list Option)) :
  let s1 := mkOption "s1" "SUB_COMMAND" ssetup sexecute sauto soptions in
  let g := mkOption "g" "SUB_COMMAND_GROUP" gsetup gexecute gauto (Some [s1]) in
  let compile := fun store => loadSlashSubcommand store pino (SlashSubcommand.mk "p" [g]) in
  fst (compile store) = Ok tt
  /\ snd (compile store) !! "cmd:p:g:s1"
     = Some (CommandModule.mk (command_envelope (or_default ssetup) sexecute)
               (pino "subcommand" "cmd:p:g:s1"))
  /\ snd (compile store) !! "cmd:p:g" = store !! "cmd:p:g"
  /\ snd (compile store) !! "cmd:p" = store !! "cmd:p"
  /\ snd (compile ∅) !! "cmd:p:g" = None
  /\ snd (compile ∅) !! "cmd:p" = None
  /\ (forall before after,
        let result :=
          loadSlashSubcommand store pino
            (SlashSubcommand.mk "p" (before ++ g :: after)) in
        fst result = Ok tt ->
        is_Some (snd result !! "cmd:p:g:s1")
        /\ snd result !! "cmd:p" = store !! "cmd:p").
Proof.
  intros s1 g compile.
  assert (Hrun : forall st, compile st =
            loadAutocompletes
              (<["cmd:p:g:s1" :=
                   CommandModule.mk (command_envelope (or_default ssetup) sexecute)
                     (pino "subcommand" "cmd:p:g:s1")]> st)
              "p:g:s1" pino soptions).
  { intros st. unfold compile, loadSlashSubcommand.
    cbn [SlashSubcommand.options SlashSubcommand.name].
    rewrite for_of_single. cbn [opt_type g String.eqb Ascii.eqb Bool.eqb].
    rewrite (loadSubcommandGroup_single st "p" pino g s1 eq_refl). reflexivity. }
  assert (Hkeep : forall st (k : string),
            k <> "cmd:p:g:s1" ->
            (exists r, k = String "c" r) ->
            snd (compile st) !! k = st !! k).
  { intros st k Hne [r ->]. rewrite Hrun, loadAutocompletes_other_keys by discriminate.
    apply lookup_insert_ne. congruence. }
  repeat split.
  - rewrite Hrun. apply loadAutocompletes_ok.
  - rewrite Hrun, loadAutocompletes_other_keys by discriminate.
    apply lookup_insert_eq.
  - apply Hkeep; [discriminate|eauto].
  - apply Hkeep; [discriminate|eauto].
  - rewrite Hkeep; [apply lookup_empty|discriminate|eauto].
  - rewrite Hkeep; [apply lookup_empty|discriminate|eauto].
  - exact (loadSlashSubcommand_group_member store pino "p" before after g s1
             eq_refl eq_refl H).
  - exact (loadSlashSubcommand_command_key store pino
             (SlashSubcommand.mk "p" (before ++ g :: after))).
Qed.

Lemma subcommand_group_keys_witness :
  is_Some
    (snd (loadSlashSubcommand ∅ Sample.pino
            (SlashSubcommand.mk "p"
               ([] ++ Sample.g :: [mkOption "count" "INTEGER" None None None None])))
     !! "cmd:p:g:s1").
Proof.
  refine (proj1 (proj2 (proj2 (proj2 (proj2 (proj2 (proj2
    (subcommand_group_keys ∅ Sample.pino None None None None None None None))))))
    [] [mkOption "count" "INTEGER" None None None None] _)).
  reflexivity.
Defined.

(** C10: an option of a slash command with subcommands whose type is
    neither [SUB_COMMAND] nor [SUB_COMMAND_GROUP] is skipped: compiling the
    command gives the very outcome and store that compiling it without that
    option gives, and a command with only such an option compiles without
    error to the store it started from. *)
Theorem other_options_skipped (store : CommandStore) (pino : LoggerFactory)
    (name : string) (before after : list Option) (option : Option) :
  opt_type option <> "SUB_COMMAND" ->
  opt_type option <> "SUB_COMMAND_GROUP" ->
  loadSlashSubcommand store pino
    (SlashSubcommand.mk name (before ++ option :: after))
  = loadSlashSubcommand store pino (SlashSubcommand.mk name (before ++ after))
  /\ loadSlashSubcommand store pino (SlashSubcommand.mk name [option])
     = (Ok tt, store).
Proof.
  intros Hsub Hgroup.
  apply String.eqb_neq in Hsub. apply String.eqb_neq in Hgroup.
  unfold loadSlashSubcommand.
  cbn [SlashSubcommand.options SlashSubcommand.name]. split.
  - rewrite !for_of_app. unfold bind.
    match goal with |- context [for_of before ?b store] =>
      destruct (for_of before b store) as [[[]|e] s'] end; [|reflexivity].
    simpl. unfold bind at 1. rewrite Hsub, Hgroup. reflexivity.
  - rewrite for_of_single, Hsub, Hgroup. reflexivity.
Qed.

Lemma other_options_skipped_witness :
  loadSlashSubcommand ∅ Sample.pino
    (SlashSubcommand.mk "p"
       ([Sample.g] ++ mkOption "count" "INTEGER" None None None None :: []))
  = loadSlashSubcommand ∅ Sample.pino (SlashSubcommand.mk "p" ([Sample.g] ++ []))
  /\ loadSlashSubcommand ∅ Sample.pino
       (SlashSubcommand.mk "p" [mkOption "count" "INTEGER" None None None None])
     = (Ok tt, ∅).
Proof.
  apply other_options_skipped; simpl; discriminate.
Defined.

(** C9: [unloadEvent] never removes an entry.  For a stored key the call
    returns the store it was given, so the key is still there: a second
    [unloadEvent] on that key calls [off] again with the same name and
    function and writes no warning.  Whatever the key, the store comes back
    unchanged. *)
Theorem unloadEvent_keeps_store (store : EventStore) (client : Client)
    (key : string) (logger1 logger2 : option Logger) (event : EventModule.t)
    (w : World) :
  store !! key = Some event ->
  let off := CallOff (EventModule.name event) (fn_ref (EventModule.execute event)) in
  let first := unloadEvent store client key logger1 w in
  let second := unloadEvent store client key logger2 (snd first) in
  fst first = Ok store
  /\ fst second = Ok store
  /\ calls (snd first) = calls w ++ [off]
  /\ calls (snd second) = calls w ++ [off; off]
  /\ count_level LWarn (added (logs w) (logs (snd second))) = 0
  /\ (forall key' logger' w', fst (unloadEvent store client key' logger' w') = Ok store).
Proof.
  intros H off first second. subst first second off.
  rewrite !(unloadEvent_present _ _ _ _ _ _ H).
  repeat split.
  - destruct logger1; reflexivity.
  - destruct logger1, logger2; simpl; rewrite <- app_assoc; reflexivity.
  - destruct logger1, logger2; simpl;
      rewrite <- ?app_assoc, ?added_app, ?added_same; reflexivity.
  - intros key' logger' w'. destruct (store !! key') as [ev|] eqn:Hk.
    + rewrite (unloadEvent_present _ _ _ _ _ _ Hk). reflexivity.
    + rewrite (unloadEvent_missing _ _ _ _ _ Hk). reflexivity.
Qed.

Lemma unloadEvent_keeps_store_witness :
  let store : EventStore :=
    {[ "ready" := EventModule.mk "ready" (mkFn 0 (fun _ => ret tt))
                    (Sample.pino "event" "ready") ]} in
  fst (unloadEvent store TheClient "ready" None
         (snd (unloadEvent store TheClient "ready" None Sample.world0)))
  = Ok store.
Proof.
  intros store.
  refine (proj1 (proj2 (unloadEvent_keeps_store store TheClient "ready" None None
                          (EventModule.mk "ready" (mkFn 0 (fun _ => ret tt))
                             (Sample.pino "event" "ready"))
                          Sample.world0 _))).
  reflexivity.
Defined.

(** C7 as amended: on a key with no stored entry neither function throws
    and neither makes a detach or cleanup call.  [unloadEvent] writes one
    warning when it was given a logger and nothing otherwise; [unloadScript]
    returns at once, leaving the world untouched and the log as it was. *)
Theorem unload_missing_key (relative : string -> string -> string)
    (events : EventStore) (scripts : ScriptStore) (client : Client)
    (key : string) (logger : option Logger) (script_logger : Logger)
    (root : string) (file : SourceMap.t) (w : World) :
  events !! key = None ->
  scripts !! relative root (SourceMap.source file) = None ->
  let event_run := unloadEvent events client key logger w in
  fst event_run = Ok events
  /\ calls (snd event_run) = calls w
  /\ listeners (snd event_run) = listeners w
  /\ added (logs w) (logs (snd event_run))
     = match logger with
       | Some l => [mkEntry l LWarn (MText "Tried to unload an event that wasn't saved!")]
       | None => []
       end
  /\ unloadScript relative scripts script_logger root file w = (Ok scripts, w).
Proof.
  intros Hev Hsc event_run. subst event_run.
  rewrite (unloadEvent_missing _ _ _ _ _ Hev), (unloadScript_missing _ _ _ _ _ _ Hsc).
  destruct logger; simpl; rewrite ?added_app, ?added_same; auto.
Qed.

Lemma unload_missing_key_witness :
  unloadScript Sample.same_path ∅ (Sample.pino "script" "scripts/db.ts") Sample.root
    Sample.file Sample.world0
  = (Ok ∅, Sample.world0).
Proof.
  refine (proj2 (proj2 (proj2 (proj2
    (unload_missing_key Sample.same_path ∅ ∅ TheClient "ready" None
       (Sample.pino "script" "scripts/db.ts") Sample.root Sample.file Sample.world0 _ _))))).
  - apply lookup_empty.
  - apply lookup_empty.
Defined.

(** C7 as stated fails: [unloadScript] on a path with no stored cleanup
    resolves without writing a warning. *)
Lemma unloadScript_missing_no_warning :
  let run := unloadScript Sample.same_path ∅ (Sample.pino "script" "scripts/db.ts")
               Sample.root Sample.file Sample.world0 in
  (∅ : ScriptStore) !! Sample.same_path Sample.root (SourceMap.source Sample.file) = None
  /\ resolves (fst run) = true
  /\ count_level LWarn (added (logs Sample.world0) (logs (snd run))) = 0
  /\ count_level LWarn (added (logs Sample.world0) (logs (snd run))) <> 1.
Proof.
  cbv zeta. rewrite unloadScript_missing by apply lookup_empty.
  repeat split; try apply lookup_empty. vm_compute. discriminate.
Qed.

(** C6 as amended: for a path with a stored cleanup function, [unloadScript]
    calls that function once, resolves whether it returned or threw, writes
    two error entries when it threw and none when it returned, and gives
    back the store it was given: the entry stays in the cleanup store. *)
Theorem unloadScript_keeps_entry (relative : string -> string -> string)
    (store : ScriptStore) (logger : Logger) (root : string) (file : SourceMap.t)
    (cleanup : User unit) (w : World) :
  let relpath := relative root (SourceMap.source file) in
  store !! relpath = Some cleanup ->
  let run := unloadScript relative store logger root file w in
  fst run = Ok store
  /\ calls (snd run) = calls w ++ [CallCleanup]
  /\ ext (snd run) = snd (cleanup (ext w))
  /\ added (logs w) (logs (snd run))
     = match fst (cleanup (ext w)) with
       | Ok _ => []
       | Throw error =>
           [ mkEntry logger LError
               (MText ("Cleanup function at " +:+ relpath +:+ " threw an error!"));
             mkEntry logger LError (MValue error) ]
       end
  /\ returned ∅ (fst run) !! relpath = Some cleanup.
Proof.
  intros relpath H run. subst run.
  rewrite (unloadScript_present relative _ _ _ _ _ _ H). fold relpath.
  cbn [fst snd].
  destruct (cleanup (ext w)) as [[[]|error] x]; simpl;
    rewrite <- ?app_assoc, ?added_app, ?added_same; auto.
Qed.

Lemma unloadScript_keeps_entry_witness :
  returned ∅
    (fst (unloadScript Sample.same_path Sample.cleanups
            (Sample.pino "script" "scripts/db.ts") Sample.root Sample.file Sample.world0))
  !! "scripts/db.ts"
  = Some (fun e => (Ok tt, e)).
Proof.
  refine (proj2 (proj2 (proj2 (proj2
    (unloadScript_keeps_entry Sample.same_path Sample.cleanups
       (Sample.pino "script" "scripts/db.ts") Sample.root Sample.file
       (fun e => (Ok tt, e)) Sample.world0 _))))).
  reflexivity.
Defined.

(** C6 as stated fails: after [unloadScript] has run a stored cleanup
    function, the path is still in the cleanup store.  The file
    [scripts/db.ts] is unloaded from the empty root, where its relative path
    is [scripts/db.ts], the path its cleanup function is stored under. *)
Lemma unloadScript_entry_remains :
  let run := unloadScript Sample.same_path Sample.cleanups
               (Sample.pino "script" "scripts/db.ts") Sample.root Sample.file
               Sample.world0 in
  Sample.root = EmptyString
  /\ Sample.same_path Sample.root (SourceMap.source Sample.file) = "scripts/db.ts"
  /\ has Sample.cleanups "scripts/db.ts" = true
  /\ resolves (fst run) = true
  /\ calls (snd run) = [CallCleanup]
  /\ has (returned ∅ (fst run)) "scripts/db.ts" = true.
Proof. vm_compute. repeat split. Qed.


(** C1 as amended: what happens when the raw handler throws depends on the
    kind of handler.  A handler stored by a command loader (slash command,
    subcommand, grouped subcommand, user command, message command,
    autocomplete) catches nothing: its promise rejects with the raw
    handler's error and it writes no log entry.  A listener built by
    [loadEvent] catches the error: its promise resolves, and it writes, after
    the entry that announced the run, one info entry on the event's logger
    and two error entries on the logger that carries the request id. *)
Theorem raw_failure_outcome :
  (forall (l : Loader) (k : string) (m : CommandModule.t),
      snd (run_loader l ∅) !! k = Some m ->
      exists setup raw,
        In (setup, raw) (sources_of l)
        /\ CommandModule.execute m = command_envelope (or_default setup) raw
        /\ forall (h : Handler) ctx w deps x error x',
             raw = Some h ->
             or_default setup (ext w) = (Ok deps, x) ->
             h deps ctx x = (Throw error, x') ->
             fst (CommandModule.execute m ctx w) = Throw error
             /\ logs (snd (CommandModule.execute m ctx w)) = logs w)
  /\ (forall (store store' : EventStore) client key pino event w0 w0',
        loadEvent store client key pino event w0 = (Ok store', w0') ->
        exists listener,
          store' !! key = Some listener
          /\ forall args w deps x error x',
               let reqId := uuids (ext w) (drawn (ext w)) in
               let _logger := pino "event" (Event.name event) in
               or_default (Event.setup event) (draw (ext w)) = (Ok deps, x) ->
               Event.execute event deps (mkEventContext client (child _logger reqId))
                 args x = (Throw error, x') ->
               let run := fn_body (EventModule.execute listener) args w in
               fst run = Ok tt
               /\ added (logs w) (logs (snd run))
                  = running_entry _logger reqId (Event.name event)
                    :: failure_entries _logger reqId (Event.name event) error
               /\ count_level LError (added (logs w) (logs (snd run))) = 2).
Proof.
  split.
  - intros l k m H.
    destruct (compiled_has_source l k m H) as (setup & raw & Hin & Hm).
    exists setup, raw. split; [exact Hin|]. split; [exact Hm|].
    intros h ctx w deps x error x' -> Hsetup Hraw.
    rewrite Hm, command_envelope_run, Hsetup, Hraw. auto.
  - intros store store' client key pino event w0 w0' Hload.
    eexists. split; [exact (loadEvent_stores _ _ _ _ _ _ _ _ Hload)|].
    intros args w deps x error x' reqId _logger Hsetup Hraw run. subst run.
    cbn [EventModule.execute fn_body].
    rewrite event_execute_run. fold reqId _logger. rewrite Hsetup, Hraw.
    cbn [fst snd]. unfold set_logs. cbn [logs]. rewrite added_app. auto.
Qed.

Lemma raw_failure_outcome_witness :
  exists m,
    snd (run_loader (Sample.who None Sample.failing) ∅) !! "usr:who" = Some m
    /\ fst (CommandModule.execute m VUndefined Sample.world0) = Throw (VStr "boom").
Proof.
  eexists. split; [reflexivity|].
  destruct (proj1 raw_failure_outcome (Sample.who None Sample.failing) "usr:who" _ eq_refl)
    as (setup & raw & Hin & _ & Hrun).
  destruct Hin as [[= <- <-]|[]].
  exact (proj1 (Hrun Sample.failing VUndefined Sample.world0 emptyObject _
                  (VStr "boom") _ eq_refl eq_refl eq_refl)).
Defined.

(** C1 as stated fails on both counts: the handler [loadSlashCommand]
    stores rejects when the raw handler throws, and an event listener, which
    does resolve, writes two error entries. *)
Lemma raw_failure_rejects_command :
  let store :=
    snd (loadSlashCommand ∅ Sample.pino
           (SlashCommand.mk "ping" None Sample.failing None)) in
  let listeners :=
    returned ∅
      (fst (loadEvent ∅ TheClient "ready" Sample.pino
              (Sample.ready Sample.failing_listener None) Sample.world0)) in
  (CommandModule.execute <$> store !! "cmd:ping"
   = Some (command_envelope (or_default None) (Some Sample.failing)))
  /\ fst (command_envelope (or_default None) (Some Sample.failing) VUndefined
            Sample.world0) = Throw (VStr "boom")
  /\ logs (snd (command_envelope (or_default None) (Some Sample.failing) VUndefined
                  Sample.world0)) = []
  /\ (fn_body <$> (EventModule.execute <$> listeners !! "ready")
      = Some (event_execute TheClient (Sample.pino "event" "ready") (or_default None)
                (Sample.ready Sample.failing_listener None)))
  /\ count_level LError
       (logs (snd (event_execute TheClient (Sample.pino "event" "ready")
                     (or_default None) (Sample.ready Sample.failing_listener None)
                     [] Sample.world0))) = 2.
Proof. repeat split. Qed.

(** C5 as amended: when [setup] throws, no handler runs its raw handler
    (the only call made is the one to [setup]).  A handler stored by a
    command loader then rejects with [setup]'s error and writes no log
    entry; a listener built by [loadEvent] resolves and writes one info
    entry on the event's logger and two error entries on the logger that
    carries the request id. *)
Theorem setup_failure_outcome :
  (forall (l : Loader) (k : string) (m : CommandModule.t),
      snd (run_loader l ∅) !! k = Some m ->
      exists setup raw,
        In (setup, raw) (sources_of l)
        /\ CommandModule.execute m = command_envelope (or_default setup) raw
        /\ forall ctx w error x,
             or_default setup (ext w) = (Throw error, x) ->
             let run := CommandModule.execute m ctx w in
             fst run = Throw error
             /\ logs (snd run) = logs w
             /\ added (calls w) (calls (snd run)) = [CallSetup])
  /\ (forall (store store' : EventStore) client key pino event w0 w0',
        loadEvent store client key pino event w0 = (Ok store', w0') ->
        exists listener,
          store' !! key = Some listener
          /\ forall args w error x,
               let reqId := uuids (ext w) (drawn (ext w)) in
               let _logger := pino "event" (Event.name event) in
               or_default (Event.setup event) (draw (ext w)) = (Throw error, x) ->
               let run := fn_body (EventModule.execute listener) args w in
               fst run = Ok tt
               /\ added (logs w) (logs (snd run))
                  = failure_entries _logger reqId (Event.name event) error
               /\ added (calls w) (calls (snd run)) = [CallSetup]).
Proof.
  split.
  - intros l k m H.
    destruct (compiled_has_source l k m H) as (setup & raw & Hin & Hm).
    exists setup, raw. split; [exact Hin|]. split; [exact Hm|].
    intros ctx w error x Hsetup run. subst run.
    rewrite Hm, command_envelope_run, Hsetup. cbn [fst snd].
    repeat split. simpl. apply added_app.
  - intros store store' client key pino event w0 w0' Hload.
    eexists. split; [exact (loadEvent_stores _ _ _ _ _ _ _ _ Hload)|].
    intros args w error x reqId _logger Hsetup run. subst run.
    cbn [EventModule.execute fn_body].
    rewrite event_execute_run. fold reqId _logger. rewrite Hsetup.
    cbn [fst snd]. unfold set_logs. cbn [logs calls]. repeat split.
    + apply added_app.
    + simpl. apply added_app.
Qed.

Lemma setup_failure_outcome_witness :
  exists m,
    snd (run_loader (Sample.who (Some Sample.failing_setup) Sample.quiet) ∅)
      !! "usr:who" = Some m
    /\ added (calls Sample.world0)
         (calls (snd (CommandModule.execute m VUndefined Sample.world0)))
       = [CallSetup].
Proof.
  eexists. split; [reflexivity|].
  destruct (proj1 setup_failure_outcome
              (Sample.who (Some Sample.failing_setup) Sample.quiet) "usr:who" _ eq_refl)
    as (setup & raw & Hin & _ & Hrun).
  destruct Hin as [[= <- <-]|[]].
  exact (proj2 (proj2 (Hrun VUndefined Sample.world0 (VStr "no deps") _ eq_refl))).
Defined.

(** C5 as stated fails: when [setup] throws, the handler [loadSlashCommand]
    stores rejects and writes nothing to the log. *)
Lemma setup_failure_rejects_command :
  let store :=
    snd (loadSlashCommand ∅ Sample.pino
           (SlashCommand.mk "ping" (Some Sample.failing_setup) Sample.quiet None)) in
  let execute :=
    command_envelope (or_default (Some Sample.failing_setup)) (Some Sample.quiet) in
  (CommandModule.execute <$> store !! "cmd:ping" = Some execute)
  /\ resolves (fst (execute VUndefined Sample.world0)) = false
  /\ fst (execute VUndefined Sample.world0) = Throw (VStr "no deps")
  /\ logs (snd (execute VUndefined Sample.world0)) = [].
Proof. repeat split. Qed.

(** C4: every invocation of a compiled handler calls [setup] anew and runs
    the raw handler with the value that very call returned.  [n]
    invocations make [n] calls to [setup]; with a [setup] that hands out a
    strictly incrementing counter the [n] dependency contexts are the [n]
    consecutive counter values, pairwise distinct.  This holds for the
    handlers stored by the command loaders and for the listeners built by
    [loadEvent]. *)
Theorem setup_runs_on_every_invocation :
  (forall (l : Loader) (k : string) (m : CommandModule.t),
      snd (run_loader l ∅) !! k = Some m ->
      exists setup raw,
        In (setup, raw) (sources_of l)
        /\ CommandModule.execute m = command_envelope (or_default setup) raw
        /\ (forall n ctx w,
              count_calls is_setup
                (added (calls w)
                   (calls (snd (invoke_n n (CommandModule.execute m) ctx w)))) = n)
        /\ (forall (h : Handler) ctx w deps x,
              raw = Some h ->
              or_default setup (ext w) = (Ok deps, x) ->
              added (calls w) (calls (snd (CommandModule.execute m ctx w)))
              = [CallSetup; CallExecute deps])
        /\ (forall (h : Handler) n ctx w c,
              setup = Some Sample.counter_setup ->
              raw = Some h ->
              (forall deps ctx, keeps_heap (h deps ctx)) ->
              heap (ext w) = VNum c ->
              let used :=
                contexts (added (calls w)
                            (calls (snd (invoke_n n (CommandModule.execute m) ctx w)))) in
              used = count_from c n /\ NoDup used /\ length used = n))
  /\ (forall (store store' : EventStore) client key pino event w0 w0',
        loadEvent store client key pino event w0 = (Ok store', w0') ->
        exists listener,
          store' !! key = Some listener
          /\ (forall n args w,
                count_calls is_setup
                  (added (calls w)
                     (calls (snd (invoke_n n (fn_body (EventModule.execute listener))
                                    args w)))) = n)
          /\ (forall args w deps x,
                or_default (Event.setup event) (draw (ext w)) = (Ok deps, x) ->
                added (calls w)
                  (calls (snd (fn_body (EventModule.execute listener) args w)))
                = [CallSetup; CallExecute deps])
          /\ (forall n args w c,
                Event.setup event = Some Sample.counter_setup ->
                (forall deps ctx args, keeps_heap (Event.execute event deps ctx args)) ->
                heap (ext w) = VNum c ->
                let used :=
                  contexts (added (calls w)
                              (calls (snd (invoke_n n
                                             (fn_body (EventModule.execute listener))
                                             args w)))) in
                used = count_from c n /\ NoDup used /\ length used = n)).
Proof.
  split.
  - intros l k m H.
    destruct (compiled_has_source l k m H) as (setup & raw & Hin & Hm).
    exists setup, raw. split; [exact Hin|]. split; [exact Hm|]. rewrite Hm.
    split; [|split].
    + intros n ctx w.
      destruct (invoke_n_setups _ ctx (command_envelope_one_setup (or_default setup) raw) n w)
        as (new & -> & Hn).
      rewrite added_app. exact Hn.
    + intros h ctx w deps x -> Hsetup.
      rewrite command_envelope_run, Hsetup. cbn [snd]. simpl.
      rewrite <- app_assoc. apply added_app.
    + intros h n ctx w c -> -> Hkeeps Hc used. subst used. cbn [or_default].
      destruct (invoke_n_counts _ ctx (command_envelope_counts_up h Hkeeps) n w c Hc)
        as (new & -> & Hn).
      rewrite added_app, Hn.
      split; [reflexivity|]. split; [apply NoDup_count_from|apply length_count_from].
  - intros store store' client key pino event w0 w0' Hload.
    eexists. split; [exact (loadEvent_stores _ _ _ _ _ _ _ _ Hload)|].
    cbn [EventModule.execute fn_body]. split; [|split].
    + intros n args w.
      destruct (invoke_n_setups _ args
                  (event_execute_one_setup client (pino "event" (Event.name event))
                     (or_default (Event.setup event)) event) n w)
        as (new & -> & Hn).
      rewrite added_app. exact Hn.
    + intros args w deps x Hsetup.
      rewrite event_execute_run, Hsetup.
      destruct (Event.execute event _ _ _ _) as [[[]|e] x']; simpl;
        rewrite <- app_assoc; apply added_app.
    + intros n args w c Hsetup Hkeeps Hc. rewrite Hsetup. cbn [or_default].
      destruct (invoke_n_counts _ args
                  (event_execute_counts_up client (pino "event" (Event.name event))
                     event Hkeeps) n w c Hc)
        as (new & -> & Hn).
      rewrite added_app, Hn.
      split; [reflexivity|]. split; [apply NoDup_count_from|apply length_count_from].
Qed.

Lemma setup_runs_on_every_invocation_witness :
  exists m,
    snd (run_loader (Sample.who (Some Sample.counter_setup) Sample.quiet) ∅)
      !! "usr:who" = Some m
    /\ contexts
         (added (calls Sample.world0)
            (calls (snd (invoke_n 3 (CommandModule.execute m) VUndefined Sample.world0))))
       = [VNum 0; VNum 1; VNum 2].
Proof.
  eexists. split; [reflexivity|].
  destruct (proj1 setup_runs_on_every_invocation
              (Sample.who (Some Sample.counter_setup) Sample.quiet) "usr:who" _ eq_refl)
    as (setup & raw & Hin & _ & _ & _ & Hrun).
  destruct Hin as [[= <- <-]|[]].
  refine (proj1 (Hrun Sample.quiet 3 VUndefined Sample.world0 0%Z eq_refl eq_refl _ eq_refl)).
  intros deps ctx e. reflexivity.
Defined.

(** C2 fails on the code, for a key that is not the event's name.  Loading
    the [ready] event under the key of its file and loading it again under
    that key: the second call tests the store at the key but reads the old
    listener at the event's name, finds none, and throws; no [off] call is
    made, the first listener stays attached, and the new one is not. *)
Theorem loadEvent_reload_by_file_key_throws :
  let event := Sample.ready Sample.listener None in
  let first := loadEvent ∅ TheClient "events/ready.ts" Sample.pino event Sample.world0 in
  let second :=
    loadEvent (returned ∅ (fst first)) TheClient "events/ready.ts" Sample.pino
      event (snd first) in
  resolves (fst first) = true
  /\ listeners (snd first) = [mkListener "ready" 0 true]
  /\ fst second
     = Throw (TypeError "Cannot read properties of undefined (reading 'execute')")
  /\ count_calls is_off (calls (snd second)) = 0
  /\ listeners (snd second) = [mkListener "ready" 0 true].
Proof. vm_compute. repeat split. Qed.

(** With another entry stored under the event's name the reload does not
    throw: [off] is called with the key as event name and the other entry's
    function, which detaches nothing, and the new listener is attached next
    to the one the key had before. *)
Remark loadEvent_reload_duplicates_listener :
  let event := Sample.message Sample.listener in
  let load := fun key run =>
    loadEvent (returned ∅ (fst run)) TheClient key Sample.pino event (snd run) in
  let first := load "messageCreate" (Ok ∅, Sample.world0) in
  let second := load "events/message.ts" first in
  let third := load "events/message.ts" second in
  resolves (fst third) = true
  /\ listeners (snd second)
     = [mkListener "messageCreate" 0 false; mkListener "messageCreate" 1 false]
  /\ added (calls (snd second)) (calls (snd third))
     = [CallOff "events/message.ts" 0; CallOn "messageCreate" 2]
  /\ listeners (snd third)
     = [mkListener "messageCreate" 0 false; mkListener "messageCreate" 1 false;
        mkListener "messageCreate" 2 false].
Proof. vm_compute. repeat split. Qed.


(** * Further properties of the loaders *)

(** ** Loading scripts *)

Section ScriptLoading.

Variable relative : string -> string -> string.
Variable import : string -> User ScriptModule.

(** One run of [loadScript], case by case. *)
Lemma loadScript_run (store : ScriptStore) client pino root file w :
  let relpath := relative root (SourceMap.source file) in
  let logger := pino "script" relpath in
  loadScript relative import store client pino root file w =
  match import (SourceMap.target file) (ext w) with
  | (Throw e, x) => (Throw e, set_ext x w)
  | (Ok script, x) =>
      match chooksOnLoad script with
      | None => (Ok store, set_ext x w)
      | Some onLoad =>
          match onLoad (mkScriptContext client logger) x with
          | (Ok (Some f), x') => (Ok (<[relpath := f]> store), set_ext x' w)
          | (Ok None, x') => (Ok store, set_ext x' w)
          | (Throw e, x') =>
              (Ok store,
               add_log (mkEntry logger LError (MText "Failed to run setup script!"))
                 (add_log (mkEntry logger LError (MValue e)) (set_ext x' w)))
          end
      end
  end.
Proof.
  intros relpath logger. unfold loadScript. fold relpath. unfold_js. simpl.
  destruct (import (SourceMap.target file) (ext w)) as [[script|e] x]; simpl;
    [|reflexivity].
  destruct (chooksOnLoad script) as [onLoad|]; simpl; [|reflexivity].
  fold logger.
  destruct (onLoad (mkScriptContext client logger) x) as [[[f|]|e] x']; reflexivity.
Qed.

(** X1: when the load hook of a script returns a cleanup function,
    [loadScript] resolves with that function stored under the file's
    relative path, every other path as it was, and nothing written to the
    log. *)
Theorem loadScript_registers_cleanup (store : ScriptStore) client pino root file w
    script x onLoad (f : User unit) x' :
  let relpath := relative root (SourceMap.source file) in
  import (SourceMap.target file) (ext w) = (Ok script, x) ->
  chooksOnLoad script = Some onLoad ->
  onLoad (mkScriptContext client (pino "script" relpath)) x = (Ok (Some f), x') ->
  let run := loadScript relative import store client pino root file w in
  returned ∅ (fst run) !! relpath = Some f
  /\ resolves (fst run) = true
  /\ (forall other, other <> relpath -> returned ∅ (fst run) !! other = store !! other)
  /\ logs (snd run) = logs w
  /\ ext (snd run) = x'.
Proof.
  intros relpath Himport Hhook Hload run. subst run.
  rewrite loadScript_run. fold relpath. rewrite Himport, Hhook, Hload. cbn [fst snd returned].
  repeat split.
  - apply lookup_insert_eq.
  - intros other Hne. apply lookup_insert_ne. congruence.
Qed.

(** X2: when the load hook throws, [loadScript] still resolves; it writes
    two error entries on the script's logger, the thrown value first and the
    fixed message second, and registers no cleanup: the store is unchanged. *)
Theorem loadScript_hook_failure (store : ScriptStore) client pino root file w
    script x onLoad error x' :
  let relpath := relative root (SourceMap.source file) in
  let logger := pino "script" relpath in
  import (SourceMap.target file) (ext w) = (Ok script, x) ->
  chooksOnLoad script = Some onLoad ->
  onLoad (mkScriptContext client logger) x = (Throw error, x') ->
  let run := loadScript relative import store client pino root file w in
  fst run = Ok store
  /\ added (logs w) (logs (snd run))
     = [ mkEntry logger LError (MValue error);
         mkEntry logger LError (MText "Failed to run setup script!") ].
Proof.
  intros relpath logger Himport Hhook Hload run. subst run.
  rewrite loadScript_run. fold relpath logger. rewrite Himport, Hhook, Hload.
  cbn [fst snd]. split; [reflexivity|].
  simpl. rewrite <- app_assoc. apply added_app.
Qed.

(** X3: a script file without a load hook, or whose load hook returns no
    cleanup function, is not tracked: [loadScript] resolves with the store
    unchanged and writes nothing to the log.  A cleanup registered for that
    path by an earlier load is therefore still there. *)
Theorem loadScript_nothing_tracked (store : ScriptStore) client pino root file w
    script x :
  let relpath := relative root (SourceMap.source file) in
  import (SourceMap.target file) (ext w) = (Ok script, x) ->
  (chooksOnLoad script = None
   \/ exists onLoad x',
        chooksOnLoad script = Some onLoad
        /\ onLoad (mkScriptContext client (pino "script" relpath)) x = (Ok None, x')) ->
  let run := loadScript relative import store client pino root file w in
  fst run = Ok store /\ logs (snd run) = logs w /\ calls (snd run) = calls w.
Proof.
  intros relpath Himport Hhook run. subst run.
  rewrite loadScript_run. fold relpath. rewrite Himport.
  destruct Hhook as [Hnone|(onLoad & x' & Hsome & Hload)].
  - rewrite Hnone. auto.
  - rewrite Hsome, Hload. auto.
Qed.

(** X4: the evaluation of the script file is not guarded: when it fails,
    [loadScript] rejects with that error and writes nothing to the log. *)
Theorem loadScript_import_failure (store : ScriptStore) client pino root file w error x :
  import (SourceMap.target file) (ext w) = (Throw error, x) ->
  let run := loadScript relative import store client pino root file w in
  fst run = Throw error /\ logs (snd run) = logs w.
Proof.
  intros Himport run. subst run. rewrite loadScript_run, Himport. auto.
Qed.

(** X5: load, then unload: the function [unloadScript] runs is the cleanup
    function the load hook returned, run once on the state the load left;
    nothing is logged when it returns, and the path stays registered. *)
Theorem loadScript_unloadScript (store : ScriptStore) client pino logger root file w
    script x onLoad (f : User unit) x' :
  let relpath := relative root (SourceMap.source file) in
  import (SourceMap.target file) (ext w) = (Ok script, x) ->
  chooksOnLoad script = Some onLoad ->
  onLoad (mkScriptContext client (pino "script" relpath)) x = (Ok (Some f), x') ->
  let loaded := loadScript relative import store client pino root file w in
  let unloaded :=
    unloadScript relative (returned ∅ (fst loaded)) logger root file (snd loaded) in
  resolves (fst unloaded) = true
  /\ added (calls w) (calls (snd unloaded)) = [CallCleanup]
  /\ ext (snd unloaded) = snd (f x')
  /\ (resolves (fst (f x')) = true -> logs (snd unloaded) = logs w)
  /\ returned ∅ (fst unloaded) !! relpath = Some f.
Proof.
  intros relpath Himport Hhook Hload loaded unloaded. subst loaded unloaded.
  rewrite loadScript_run. fold relpath. rewrite Himport, Hhook, Hload.
  cbn [fst snd returned].
  rewrite (unloadScript_present relative _ logger root file f _
             (lookup_insert_eq store relpath f)).
  cbn [fst snd returned]. fold relpath.
  destruct (f x') as [[[]|e] x''] eqn:Hf; simpl; rewrite Hf; simpl;
    rewrite ?added_app, ?lookup_insert_eq; repeat split; try discriminate.
Qed.

(** X6: a cleanup function outlives the script that returned it.  With a
    cleanup registered for a path, unloading the file, loading a new version
    of it that has no load hook, and unloading again runs the old cleanup
    function a second time. *)
Theorem stale_cleanup_runs_again (store : ScriptStore) client pino logger root file w
    (f : User unit) script :
  let relpath := relative root (SourceMap.source file) in
  store !! relpath = Some f ->
  (forall e, import (SourceMap.target file) e = (Ok script, e)) ->
  chooksOnLoad script = None ->
  let first := unloadScript relative store logger root file w in
  let reload :=
    loadScript relative import (returned ∅ (fst first)) client pino root file (snd first) in
  let second :=
    unloadScript relative (returned ∅ (fst reload)) logger root file (snd reload) in
  fst second = Ok store
  /\ added (calls w) (calls (snd second)) = [CallCleanup; CallCleanup].
Proof.
  intros relpath Hstored Himport Hhook first reload second.
  subst first reload second.
  rewrite (unloadScript_present relative store logger root file f w Hstored).
  cbn [fst snd returned]. rewrite loadScript_run, Himport, Hhook. cbn [fst snd returned].
  rewrite (unloadScript_present relative store logger root file f _ Hstored).
  cbn [fst snd]. split; [reflexivity|].
  destruct (f (ext w)) as [[[]|e1] x1]; simpl;
    match goal with |- context [f ?x] => destruct (f x) as [[[]|e2] x2] end; simpl;
    rewrite <- ?app_assoc; apply added_app.
Qed.

End ScriptLoading.

Lemma loadScript_registers_cleanup_witness :
  returned ∅
    (fst (loadScript Sample.same_path Demo.db_script ∅ TheClient Sample.pino Sample.root
            Sample.file Sample.world0))
  !! "scripts/db.ts" = Some Demo.close_db.
Proof.
  exact (proj1 (loadScript_registers_cleanup Sample.same_path Demo.db_script ∅
                  TheClient Sample.pino Sample.root Sample.file Sample.world0
                  _ _ _ Demo.close_db _ eq_refl eq_refl eq_refl)).
Defined.

Lemma loadScript_hook_failure_witness :
  fst (loadScript Sample.same_path Demo.broken_script Sample.cleanups TheClient
         Sample.pino Sample.root Sample.file Sample.world0)
  = Ok Sample.cleanups.
Proof.
  exact (proj1 (loadScript_hook_failure Sample.same_path Demo.broken_script
                  Sample.cleanups TheClient Sample.pino Sample.root Sample.file Sample.world0
                  _ _ _ (VStr "no database") _ eq_refl eq_refl eq_refl)).
Defined.

Lemma loadScript_nothing_tracked_witness :
  fst (loadScript Sample.same_path Demo.plain_script Sample.cleanups TheClient
         Sample.pino Sample.root Sample.file Sample.world0)
  = Ok Sample.cleanups.
Proof.
  exact (proj1 (loadScript_nothing_tracked Sample.same_path Demo.plain_script
                  Sample.cleanups TheClient Sample.pino Sample.root Sample.file Sample.world0
                  _ _ eq_refl (or_introl eq_refl))).
Defined.

Lemma loadScript_import_failure_witness :
  fst (loadScript Sample.same_path Demo.missing_script ∅ TheClient Sample.pino Sample.root
         Sample.file Sample.world0)
  = Throw (VError "Error" "Cannot find module").
Proof.
  exact (proj1 (loadScript_import_failure Sample.same_path Demo.missing_script ∅
                  TheClient Sample.pino Sample.root Sample.file Sample.world0 _ _ eq_refl)).
Defined.

Lemma loadScript_unloadScript_witness :
  let loaded :=
    loadScript Sample.same_path Demo.db_script ∅ TheClient Sample.pino Sample.root
      Sample.file Sample.world0 in
  clock (ext (snd (unloadScript Sample.same_path (returned ∅ (fst loaded))
                     (Sample.pino "script" "scripts/db.ts") Sample.root Sample.file
                     (snd loaded))))
  = 1%Z.
Proof.
  intros loaded.
  exact (f_equal clock
           (proj1 (proj2 (proj2
              (loadScript_unloadScript Sample.same_path Demo.db_script ∅ TheClient
                 Sample.pino (Sample.pino "script" "scripts/db.ts") Sample.root Sample.file
                 Sample.world0 _ _ _ Demo.close_db _ eq_refl eq_refl eq_refl))))).
Defined.

Lemma stale_cleanup_runs_again_witness :
  let store : ScriptStore := {[ "scripts/db.ts" := Demo.close_db ]} in
  let logger := Sample.pino "script" "scripts/db.ts" in
  let first := unloadScript Sample.same_path store logger Sample.root Sample.file Sample.world0 in
  let reload :=
    loadScript Sample.same_path Demo.plain_script (returned ∅ (fst first)) TheClient
      Sample.pino Sample.root Sample.file (snd first) in
  added (calls Sample.world0)
    (calls (snd (unloadScript Sample.same_path (returned ∅ (fst reload)) logger Sample.root
                   Sample.file (snd reload))))
  = [CallCleanup; CallCleanup].
Proof.
  intros store logger first reload.
  exact (proj2 (stale_cleanup_runs_again Sample.same_path Demo.plain_script store
                  TheClient Sample.pino logger Sample.root Sample.file Sample.world0
                  Demo.close_db (mkScript None) eq_refl (fun e => eq_refl) eq_refl)).
Defined.

(** ** Attaching and detaching listeners *)

Section ListenerFacts.

Lemma remove_first_skip name fn (l1 l2 : list ListenerEntry) :
  unattached name fn l1 ->
  EventEmitter.remove_first name fn (l1 ++ l2)
  = l1 ++ EventEmitter.remove_first name fn l2.
Proof.
  induction 1 as [|l l1 Hl Hrest IH]; simpl; [reflexivity|].
  rewrite Hl, IH. reflexivity.
Qed.

Lemma remove_first_unattached name fn (ls : list ListenerEntry) :
  unattached name fn ls -> EventEmitter.remove_first name fn ls = ls.
Proof.
  intros H. rewrite <- (app_nil_r ls) at 1. rewrite remove_first_skip by exact H.
  simpl. apply app_nil_r.
Qed.

Lemma unattached_rev name fn ls : unattached name fn ls -> unattached name fn (rev ls).
Proof. apply Forall_rev. Qed.

(** [off] with a function that is not attached changes nothing. *)
Lemma remove_last_unattached name fn (ls : list ListenerEntry) :
  unattached name fn ls -> EventEmitter.remove_last name fn ls = ls.
Proof.
  intros H. unfold EventEmitter.remove_last.
  rewrite remove_first_unattached by (apply unattached_rev, H).
  apply rev_involutive.
Qed.

(** [off] takes out the listener when no later one is the same function. *)
Lemma remove_last_middle name fn once (ls1 ls2 : list ListenerEntry) :
  unattached name fn ls2 ->
  EventEmitter.remove_last name fn (ls1 ++ mkListener name fn once :: ls2) = ls1 ++ ls2.
Proof.
  intros H. unfold EventEmitter.remove_last.
  rewrite rev_app_distr. simpl rev. rewrite <- app_assoc.
  rewrite remove_first_skip by (apply unattached_rev, H).
  simpl. unfold EventEmitter.matches at 1. simpl.
  rewrite String.eqb_refl, Nat.eqb_refl. simpl.
  rewrite rev_app_distr, !rev_involutive. reflexivity.
Qed.

Lemma listenersOf_app name w (more : list ListenerEntry) :
  EventEmitter.listenersOf name (set_listeners (listeners w ++ more) w)
  = EventEmitter.listenersOf name w
    ++ filter (fun l => String.eqb (l_event l) name = true) more.
Proof. unfold EventEmitter.listenersOf. simpl. apply filter_app. Qed.

(** One run of [loadEvent] on a key that is not stored. *)
Lemma loadEvent_fresh_run (store : EventStore) client key pino event w :
  store !! key = None ->
  let fn := allocated w in
  let _logger := pino "event" (Event.name event) in
  loadEvent store client key pino event w =
  (Ok (<[key := EventModule.mk (Event.name event)
                  (mkFn fn (event_execute client _logger
                              (or_default (Event.setup event)) event))
                  _logger]> store),
   {| ext := ext w; logs := logs w;
      calls := calls w ++ [attach_call event fn];
      listeners := listeners w ++ [mkListener (Event.name event) fn (Event.once event)];
      allocated := S fn |}).
Proof.
  intros Hkey fn _logger. unfold loadEvent, closure, bind, attach_call.
  rewrite (has_None _ _ Hkey).
  unfold EventEmitter.once, EventEmitter.on, bind, modify, ret. simpl.
  destruct (Event.once event); reflexivity.
Qed.

(** One run of [loadEvent] on the event's own name when that key is stored. *)
Lemma loadEvent_reload_run (store : EventStore) client pino event old w :
  store !! Event.name event = Some old ->
  let name := Event.name event in
  let fn := allocated w in
  let _logger := pino "event" name in
  loadEvent store client name pino event w =
  (Ok (<[name := EventModule.mk name
                   (mkFn fn (event_execute client _logger
                               (or_default (Event.setup event)) event))
                   _logger]> store),
   {| ext := ext w; logs := logs w;
      calls := calls w ++ [CallOff name (fn_ref (EventModule.execute old));
                           attach_call event fn];
      listeners :=
        EventEmitter.remove_last name (fn_ref (EventModule.execute old)) (listeners w)
        ++ [mkListener name fn (Event.once event)];
      allocated := S fn |}).
Proof.
  intros Hname name fn _logger. subst name fn _logger.
  unfold loadEvent, closure, bind, attach_call.
  rewrite (has_Some _ _ _ Hname), Hname.
  unfold EventEmitter.off, EventEmitter.once, EventEmitter.on, bind, modify, ret. simpl.
  destruct (Event.once event); unfold set_listeners, add_call; simpl;
    rewrite <- app_assoc; reflexivity.
Qed.

End ListenerFacts.

(** X7: load, then unload, on a key that was not stored: the listener
    [loadEvent] attached is the one [unloadEvent] detaches, whatever the key
    and the event's name; the event source has the listeners it had before,
    and the entry stays in the store. *)
Theorem loadEvent_unloadEvent (store : EventStore) (client : Client) (key : string)
    (pino : LoggerFactory) (event : Event.t) (logger : option Logger) (w : World) :
  store !! key = None ->
  let loaded := loadEvent store client key pino event w in
  let unloaded :=
    unloadEvent (returned ∅ (fst loaded)) client key logger (snd loaded) in
  resolves (fst loaded) = true
  /\ listeners (snd loaded)
     = listeners w ++ [mkListener (Event.name event) (allocated w) (Event.once event)]
  /\ resolves (fst unloaded) = true
  /\ listeners (snd unloaded) = listeners w
  /\ added (calls w) (calls (snd unloaded))
     = [attach_call event (allocated w); CallOff (Event.name event) (allocated w)]
  /\ is_Some (returned ∅ (fst unloaded) !! key).
Proof.
  intros Hkey loaded unloaded. subst loaded unloaded.
  rewrite (loadEvent_fresh_run store client key pino event w Hkey).
  cbn [fst snd returned].
  erewrite unloadEvent_present by apply lookup_insert_eq.
  cbn [fst snd returned EventModule.name EventModule.execute fn_ref].
  repeat split.
  - destruct logger; simpl; apply remove_last_snoc.
  - destruct logger; simpl; rewrite <- app_assoc; apply added_app.
  - rewrite lookup_insert_eq. eauto.
Qed.

Lemma loadEvent_unloadEvent_witness :
  let loaded :=
    loadEvent ∅ TheClient "events/ready.ts" Sample.pino
      (Sample.ready Sample.listener None) Sample.world0 in
  listeners (snd (unloadEvent (returned ∅ (fst loaded)) TheClient "events/ready.ts"
                    None (snd loaded)))
  = listeners Sample.world0.
Proof.
  intros loaded.
  exact (proj1 (proj2 (proj2 (proj2
    (loadEvent_unloadEvent ∅ TheClient "events/ready.ts" Sample.pino
       (Sample.ready Sample.listener None) None Sample.world0 eq_refl))))).
Defined.

(** X8: loading an event under a key that is not stored runs no user code
    and writes nothing: the outside world and the log are as before, one
    attaching call is made ([once] when the definition's flag is set, [on]
    otherwise), and every other key of the store is as it was. *)
Theorem loadEvent_fresh_key (store : EventStore) (client : Client) (key : string)
    (pino : LoggerFactory) (event : Event.t) (w : World) :
  store !! key = None ->
  let run := loadEvent store client key pino event w in
  resolves (fst run) = true
  /\ ext (snd run) = ext w
  /\ logs (snd run) = logs w
  /\ added (calls w) (calls (snd run))
     = [if Event.once event
        then CallOnce (Event.name event) (allocated w)
        else CallOn (Event.name event) (allocated w)]
  /\ (forall other, other <> key -> returned ∅ (fst run) !! other = store !! other).
Proof.
  intros Hkey run. subst run.
  rewrite (loadEvent_fresh_run store client key pino event w Hkey).
  cbn [fst snd returned ext logs calls]. repeat split.
  - apply added_app.
  - intros other Hne. apply lookup_insert_ne. congruence.
Qed.

Lemma loadEvent_fresh_key_witness :
  added (calls Sample.world0)
    (calls (snd (loadEvent ∅ TheClient "ready" Sample.pino
                   (Sample.ready Sample.listener None) Sample.world0)))
  = [CallOnce "ready" 0].
Proof.
  exact (proj1 (proj2 (proj2 (proj2
    (loadEvent_fresh_key ∅ TheClient "ready" Sample.pino
       (Sample.ready Sample.listener None) Sample.world0 eq_refl))))).
Defined.

(** X9: a listener whose [setup] and raw handler both return resolves and
    writes exactly two info entries on the logger that carries the request
    id: the announcement, and the completion with the time the raw handler
    took ([setup] is not timed); no warning or error is written. *)
Theorem listener_success (store store' : EventStore) (client : Client) (key : string)
    (pino : LoggerFactory) (event : Event.t) (w0 w0' : World)
    (args : list Value) (w : World) (deps : Value) (x x' : Ext) :
  loadEvent store client key pino event w0 = (Ok store', w0') ->
  let reqId := uuids (ext w) (drawn (ext w)) in
  let logger := child (pino "event" (Event.name event)) reqId in
  or_default (Event.setup event) (draw (ext w)) = (Ok deps, x) ->
  Event.execute event deps (mkEventContext client logger) args x = (Ok tt, x') ->
  exists listener,
    store' !! key = Some listener
    /\ let run := fn_body (EventModule.execute listener) args w in
       fst run = Ok tt
       /\ added (logs w) (logs (snd run))
          = [ mkEntry logger LInfo
                (MText ("Running handler for " +:+ quoted (Event.name event) +:+ "..."));
              mkEntry logger LInfo
                (MTimed (clock x' - clock x)
                   ("Successfully ran handler for " +:+ quoted (Event.name event)
                    +:+ ".")) ]
       /\ ext (snd run) = x'.
Proof.
  intros Hload reqId logger Hsetup Hraw.
  eexists. split; [exact (loadEvent_stores _ _ _ _ _ _ _ _ Hload)|].
  cbn [EventModule.execute fn_body].
  rewrite event_execute_run. fold reqId. rewrite Hsetup. fold logger. rewrite Hraw.
  cbn [fst snd]. unfold set_logs, running_entry. cbn [logs ext].
  rewrite added_app. auto.
Qed.

Lemma listener_success_witness :
  exists listener,
    snd (loadEvent ∅ TheClient "ready" Sample.pino
           (Sample.ready Sample.listener None) Sample.world0)
    = snd (loadEvent ∅ TheClient "ready" Sample.pino
             (Sample.ready Sample.listener None) Sample.world0)
    /\ fst (fn_body (EventModule.execute listener) [] Sample.world0) = Ok tt.
Proof.
  assert (Hload :
    loadEvent ∅ TheClient "ready" Sample.pino (Sample.ready Sample.listener None)
      Sample.world0
    = (Ok (returned ∅ (fst (loadEvent ∅ TheClient "ready" Sample.pino
                              (Sample.ready Sample.listener None) Sample.world0))),
       snd (loadEvent ∅ TheClient "ready" Sample.pino
              (Sample.ready Sample.listener None) Sample.world0)))
    by reflexivity.
  destruct (listener_success ∅ _ TheClient "ready" Sample.pino
              (Sample.ready Sample.listener None) Sample.world0 _
              [] Sample.world0 emptyObject (draw Sample.ext0) (draw Sample.ext0)
              Hload eq_refl eq_refl)
    as (listener & _ & Hrun & _).
  exists listener. split; [reflexivity|exact Hrun].
Defined.

(** X10: reloading an event under its own name replaces the listener.  When
    the stored listener is attached and no later listener is the same
    function, [loadEvent] detaches it, attaches the new one at the end, and
    the number of listeners for the event name stays what it was. *)
Theorem loadEvent_reload_replaces (store : EventStore) (client : Client)
    (pino : LoggerFactory) (event : Event.t) (old : EventModule.t) (w : World)
    (ls1 ls2 : list ListenerEntry) (once : bool) :
  let name := Event.name event in
  let fn := fn_ref (EventModule.execute old) in
  store !! name = Some old ->
  listeners w = ls1 ++ mkListener name fn once :: ls2 ->
  unattached name fn ls2 ->
  let run := loadEvent store client name pino event w in
  resolves (fst run) = true
  /\ listeners (snd run)
     = ls1 ++ ls2 ++ [mkListener name (allocated w) (Event.once event)]
  /\ EventEmitter.listenerCount name (snd run) = EventEmitter.listenerCount name w.
Proof.
  intros name fn Hname Hls Hlater run. subst run name fn.
  rewrite (loadEvent_reload_run store client pino event old w Hname).
  cbn [fst snd listeners]. rewrite Hls, remove_last_middle by exact Hlater.
  split; [reflexivity|]. split; [symmetry; apply app_assoc|].
  unfold EventEmitter.listenerCount, EventEmitter.listenersOf. cbn [listeners].
  rewrite Hls, !filter_app, !filter_cons, filter_nil. cbn [l_event].
  rewrite !decide_True by apply String.eqb_refl.
  rewrite !length_app. simpl. lia.
Qed.

Lemma loadEvent_reload_replaces_witness :
  let event := Sample.message Sample.listener in
  let loaded := loadEvent ∅ TheClient "messageCreate" Sample.pino event Sample.world0 in
  listeners (snd (loadEvent (returned ∅ (fst loaded)) TheClient "messageCreate"
                    Sample.pino event (snd loaded)))
  = [] ++ [] ++ [mkListener "messageCreate" 1 false].
Proof.
  intros event loaded.
  refine (proj1 (proj2
    (loadEvent_reload_replaces (returned ∅ (fst loaded)) TheClient Sample.pino event
       (EventModule.mk "messageCreate"
          (mkFn 0 (event_execute TheClient (Sample.pino "event" "messageCreate")
                     (or_default None) event))
          (Sample.pino "event" "messageCreate"))
       (snd loaded) [] [] false eq_refl eq_refl _))).
  constructor.
Defined.

(** X11: unloading an event stored under its own name and loading it
    again leaves the new listener in place of the old one.  The entry is
    still in the store after the unload, so [loadEvent] calls [off] once
    more, which finds nothing to detach. *)
Theorem unloadEvent_loadEvent (store : EventStore) (client : Client)
    (pino : LoggerFactory) (logger : option Logger) (event : Event.t)
    (old : EventModule.t) (w : World) (ls1 ls2 : list ListenerEntry) (once : bool) :
  let name := Event.name event in
  let fn := fn_ref (EventModule.execute old) in
  store !! name = Some old ->
  EventModule.name old = name ->
  listeners w = ls1 ++ mkListener name fn once :: ls2 ->
  unattached name fn ls1 ->
  unattached name fn ls2 ->
  let unloaded := unloadEvent store client name logger w in
  let reloaded :=
    loadEvent (returned ∅ (fst unloaded)) client name pino event (snd unloaded) in
  listeners (snd unloaded) = ls1 ++ ls2
  /\ resolves (fst reloaded) = true
  /\ listeners (snd reloaded)
     = ls1 ++ ls2 ++ [mkListener name (allocated w) (Event.once event)]
  /\ added (calls w) (calls (snd reloaded))
     = [CallOff name fn; CallOff name fn; attach_call event (allocated w)].
Proof.
  intros name fn Hname Hold Hls H1 H2 unloaded reloaded.
  subst unloaded reloaded name fn.
  rewrite (unloadEvent_present store client _ logger old w Hname).
  cbn [fst snd returned]. rewrite Hold.
  assert (Hrest : unattached (Event.name event) (fn_ref (EventModule.execute old))
                    (ls1 ++ ls2)) by (apply Forall_app; auto).
  rewrite (loadEvent_reload_run store client pino event old _ Hname).
  cbn [fst snd listeners calls].
  destruct logger; cbn [add_log set_listeners add_call listeners calls allocated];
    rewrite Hls, remove_last_middle by exact H2;
    rewrite remove_last_unattached by exact Hrest;
    repeat split; try (symmetry; apply app_assoc);
    rewrite <- app_assoc; apply added_app.
Qed.

Lemma unloadEvent_loadEvent_witness :
  let event := Sample.message Sample.listener in
  let loaded := loadEvent ∅ TheClient "messageCreate" Sample.pino event Sample.world0 in
  let unloaded :=
    unloadEvent (returned ∅ (fst loaded)) TheClient "messageCreate" None (snd loaded) in
  listeners (snd (loadEvent (returned ∅ (fst unloaded)) TheClient "messageCreate"
                    Sample.pino event (snd unloaded)))
  = [] ++ [] ++ [mkListener "messageCreate" 1 false].
Proof.
  intros event loaded unloaded.
  refine (proj1 (proj2 (proj2
    (unloadEvent_loadEvent (returned ∅ (fst loaded)) TheClient Sample.pino None event
       (EventModule.mk "messageCreate"
          (mkFn 0 (event_execute TheClient (Sample.pino "event" "messageCreate")
                     (or_default None) event))
          (Sample.pino "event" "messageCreate"))
       (snd loaded) [] [] false eq_refl eq_refl eq_refl _ _)))); constructor.
Defined.

(** ** The command store under the loaders *)

#[local] Set Warnings "-clear-no-such-hyp".

Section StoreFacts.

Lemma loadSlashCommand_ok store pino command :
  fst (loadSlashCommand store pino command) = Ok tt.
Proof.
  unfold loadSlashCommand, bind, set, modify. apply loadAutocompletes_ok.
Qed.

Lemma loadSubcommand_ok store parentName pino subcommand :
  fst (loadSubcommand store parentName pino subcommand) = Ok tt.
Proof.
  unfold loadSubcommand, bind, set, modify. apply loadAutocompletes_ok.
Qed.

Lemma loadSubcommandGroup_ok store parentName pino group :
  is_Some (opt_options group) ->
  fst (loadSubcommandGroup store parentName pino group) = Ok tt.
Proof.
  intros [subs Hsubs]. unfold loadSubcommandGroup. rewrite Hsubs.
  apply for_of_ok. intros sub s. unfold bind, set, modify. apply loadAutocompletes_ok.
Qed.

(** The entry of a slash command itself, whatever its options. *)
Lemma loadSlashCommand_entry store pino command :
  snd (loadSlashCommand store pino command)
    !! createKey ["cmd"; SlashCommand.name command]
  = Some (CommandModule.mk
            (command_envelope (or_default (SlashCommand.setup command))
               (Some (SlashCommand.execute command)))
            (pino "command" (createKey ["cmd"; SlashCommand.name command]))).
Proof.
  unfold loadSlashCommand, bind, set, modify.
  change (createKey ["cmd"; createKey [SlashCommand.name command]])
    with (String "c" ("md" +:+ sep_string +:+ SlashCommand.name command)).
  change (createKey ["cmd"; SlashCommand.name command])
    with (String "c" ("md" +:+ sep_string +:+ SlashCommand.name command)).
  rewrite loadAutocompletes_other_keys by discriminate.
  apply lookup_insert_eq.
Qed.

(** The keys [loadAutocompletes] adds. *)
Lemma loadAutocompletes_dom (store : CommandStore) parentKey pino options :
  dom (snd (loadAutocompletes store parentKey pino options))
  = dom store ∪ list_to_set (autocomplete_keys parentKey options).
Proof.
  unfold loadAutocompletes, autocomplete_keys.
  generalize (getAutocompletes options). intros l. revert store.
  induction l as [|o l IH]; intros store; simpl.
  - set_solver.
  - unfold bind, set, modify. rewrite IH, dom_insert_L. set_solver.
Qed.

Lemma loadSlashCommand_keeps_key k store pino command :
  keeps_key k store (snd (loadSlashCommand store pino command)).
Proof.
  unfold loadSlashCommand. apply keeps_key_bind; [apply keeps_key_set|].
  intros s. apply loadAutocompletes_keeps_key.
Qed.

(** Keys that start with neither [a] nor [c] are out of reach for a
    command with subcommands. *)
Lemma loadSlashSubcommand_other_kinds store pino command ch (rest : string) :
  ch <> "a"%char -> ch <> "c"%char ->
  snd (loadSlashSubcommand store pino command) !! String ch rest
  = store !! String ch rest.
Proof.
  intros Ha Hc.
  assert (Hstep : forall (s : CommandStore) v parentKey parent options,
            snd ((set (createKey ["cmd"; parent]) v ;;
                  fun store => loadAutocompletes store parentKey pino options) s)
              !! String ch rest
            = s !! String ch rest).
  { intros s v parentKey parent options. unfold bind, set, modify.
    rewrite loadAutocompletes_other_keys by exact Ha.
    apply lookup_insert_ne. cbv [createKey String.concat String.append]. congruence. }
  unfold loadSlashSubcommand.
  apply (for_of_invariant (fun s s' : CommandStore =>
           s' !! String ch rest = s !! String ch rest)).
  - reflexivity.
  - intros s1 s2 s3 H12 H23. congruence.
  - intros o s.
    destruct (String.eqb (opt_type o) "SUB_COMMAND").
    + apply Hstep.
    + destruct (String.eqb (opt_type o) "SUB_COMMAND_GROUP"); [|reflexivity].
      unfold loadSubcommandGroup. destruct (opt_options o) as [subs|]; [|reflexivity].
      apply (for_of_invariant (fun s s' : CommandStore =>
               s' !! String ch rest = s !! String ch rest)).
      * reflexivity.
      * intros s1 s2 s3 H12 H23. congruence.
      * intros sub s'. apply Hstep.
Qed.

Lemma loadSlashCommand_other_kinds store pino command ch (rest : string) :
  ch <> "a"%char -> ch <> "c"%char ->
  snd (loadSlashCommand store pino command) !! String ch rest
  = store !! String ch rest.
Proof.
  intros Ha Hc. unfold loadSlashCommand, bind, set, modify.
  rewrite loadAutocompletes_other_keys by exact Ha.
  apply lookup_insert_ne. cbv [createKey String.concat String.append]. congruence.
Qed.

End StoreFacts.

(** X12: last write wins.  When a slash command is loaded and then another
    one of the same name, the entry at [cmd:<name>] is the second command's
    handler, with the second command's logger, whatever options either
    command carries. *)
Theorem loadSlashCommand_last_write_wins (store : CommandStore) (pino : LoggerFactory)
    (first second : SlashCommand.t) :
  SlashCommand.name first = SlashCommand.name second ->
  let key := createKey ["cmd"; SlashCommand.name first] in
  let run :=
    loadSlashCommand (snd (loadSlashCommand store pino first)) pino second in
  fst run = Ok tt
  /\ snd run !! key
     = Some (CommandModule.mk
               (command_envelope (or_default (SlashCommand.setup second))
                  (Some (SlashCommand.execute second)))
               (pino "command" key)).
Proof.
  intros Hname key run. subst key run. split; [apply loadSlashCommand_ok|].
  rewrite Hname. apply loadSlashCommand_entry.
Qed.

Lemma loadSlashCommand_last_write_wins_witness :
  CommandModule.execute <$>
    snd (loadSlashCommand
           (snd (loadSlashCommand ∅ Sample.pino
                   (SlashCommand.mk "ping" None Sample.failing None)))
           Sample.pino (SlashCommand.mk "ping" None Sample.quiet None))
    !! "cmd:ping"
  = Some (command_envelope (or_default None) (Some Sample.quiet)).
Proof.
  rewrite (proj2 (loadSlashCommand_last_write_wins ∅ Sample.pino
                    (SlashCommand.mk "ping" None Sample.failing None)
                    (SlashCommand.mk "ping" None Sample.quiet None) eq_refl)).
  reflexivity.
Defined.

(** X13: the kinds of command do not collide.  Loading a slash command,
    flat or with subcommands, leaves every [usr:] and [msg:] entry as it
    was; loading a user command changes the entry at [usr:<name>] only, and
    loading a message command the entry at [msg:<name>] only.  A slash
    command, a user command and a message command of one name are stored
    side by side. *)
Theorem command_kinds_are_disjoint (store : CommandStore) (pino : LoggerFactory) :
  (forall command n,
      snd (loadSlashCommand store pino command) !! createKey ["usr"; n]
      = store !! createKey ["usr"; n]
      /\ snd (loadSlashCommand store pino command) !! createKey ["msg"; n]
         = store !! createKey ["msg"; n])
  /\ (forall command n,
        snd (loadSlashSubcommand store pino command) !! createKey ["usr"; n]
        = store !! createKey ["usr"; n]
        /\ snd (loadSlashSubcommand store pino command) !! createKey ["msg"; n]
           = store !! createKey ["msg"; n])
  /\ (forall command k,
        k <> createKey ["usr"; UserCommand.name command] ->
        snd (loadUserCommand store pino command) !! k = store !! k)
  /\ (forall command k,
        k <> createKey ["msg"; MessageCommand.name command] ->
        snd (loadMessageCommand store pino command) !! k = store !! k).
Proof.
  split; [|split; [|split]].
  - intros command n. split.
    + apply (loadSlashCommand_other_kinds store pino command "u"); discriminate.
    + apply (loadSlashCommand_other_kinds store pino command "m"); discriminate.
  - intros command n. split.
    + apply (loadSlashSubcommand_other_kinds store pino command "u"); discriminate.
    + apply (loadSlashSubcommand_other_kinds store pino command "m"); discriminate.
  - intros command k Hk. simpl. apply lookup_insert_ne. congruence.
  - intros command k Hk. simpl. apply lookup_insert_ne. congruence.
Qed.

Lemma command_kinds_are_disjoint_witness :
  snd (loadUserCommand
         (snd (loadSlashCommand ∅ Sample.pino
                 (SlashCommand.mk "who" None Sample.quiet None)))
         Sample.pino (UserCommand.mk "who" None Sample.failing))
    !! "cmd:who"
  = snd (loadSlashCommand ∅ Sample.pino (SlashCommand.mk "who" None Sample.quiet None))
      !! "cmd:who".
Proof.
  apply (proj1 (proj2 (proj2
    (command_kinds_are_disjoint
       (snd (loadSlashCommand ∅ Sample.pino
               (SlashCommand.mk "who" None Sample.quiet None)))
       Sample.pino)))
    (UserCommand.mk "who" None Sample.failing) "cmd:who").
  discriminate.
Defined.

(** X14: no loader removes an entry: a key stored before a command is
    loaded is still stored afterwards.  In particular the autocomplete
    entries of an earlier version of a command stay registered when the
    command is loaded again without them. *)
Theorem loaders_never_remove (l : Loader) (store : CommandStore) (k : string) :
  is_Some (store !! k) -> is_Some (snd (run_loader l store) !! k).
Proof.
  destruct l as [pino c|pino c|pino c|pino c]; cbn [run_loader].
  - apply loadSlashCommand_keeps_key.
  - apply loadSlashSubcommand_keeps_key.
  - apply (keeps_key_set k).
  - apply (keeps_key_set k).
Qed.

Lemma loaders_never_remove_witness :
  is_Some
    (snd (run_loader
            (LoadSlashCommand Sample.pino (SlashCommand.mk "find" None Sample.quiet None))
            (snd (loadSlashCommand ∅ Sample.pino
                    (SlashCommand.mk "find" None Sample.quiet
                       (Some [Demo.autocomplete_option "name"])))))
     !! "auto:find:name").
Proof.
  apply loaders_never_remove. vm_compute. eauto.
Defined.

(** X15: the keys a flat slash command registers are exactly [cmd:<name>]
    and, for each of its options that declares an autocomplete handler,
    [auto:<name>:<option>]; an option without an autocomplete handler adds
    no key. *)
Theorem loadSlashCommand_keys (store : CommandStore) (pino : LoggerFactory)
    (command : SlashCommand.t) :
  dom (snd (loadSlashCommand store pino command))
  = dom store
    ∪ {[ createKey ["cmd"; SlashCommand.name command] ]}
    ∪ list_to_set
        (autocomplete_keys (SlashCommand.name command) (SlashCommand.options command)).
Proof.
  unfold loadSlashCommand, bind, set, modify.
  rewrite loadAutocompletes_dom, dom_insert_L.
  change (createKey [SlashCommand.name command]) with (SlashCommand.name command).
  set_solver.
Qed.

(** X16: a slash command with subcommands compiles without error as soon
    as every subcommand group among its options carries its list of
    subcommands; subcommands and other options never make it throw. *)
Theorem loadSlashSubcommand_returns (store : CommandStore) (pino : LoggerFactory)
    (name : string) (options : list Option) :
  groups_have_options options ->
  fst (loadSlashSubcommand store pino (SlashSubcommand.mk name options)) = Ok tt.
Proof.
  unfold loadSlashSubcommand. cbn [SlashSubcommand.options SlashSubcommand.name].
  intros Hgroups. revert store.
  induction Hgroups as [|o options Ho Hrest IH]; intros store; [reflexivity|].
  cbn [for_of]. unfold bind at 1.
  destruct (String.eqb (opt_type o) "SUB_COMMAND") eqn:Hsub.
  - pose proof (loadSubcommand_ok store name pino o) as Hok.
    destruct (loadSubcommand store name pino o) as [[[]|e] s']; [apply IH|discriminate].
  - destruct (String.eqb (opt_type o) "SUB_COMMAND_GROUP") eqn:Hgroup.
    + apply String.eqb_eq in Hgroup.
      pose proof (loadSubcommandGroup_ok store name pino o (Ho Hgroup)) as Hok.
      destruct (loadSubcommandGroup store name pino o) as [[[]|e] s'];
        [apply IH|discriminate].
    + apply IH.
Qed.

Lemma loadSlashSubcommand_returns_witness :
  fst (loadSlashSubcommand ∅ Sample.pino
         (SlashSubcommand.mk "p" [Sample.g; Sample.s1; Demo.plain_option "count"]))
  = Ok tt.
Proof.
  apply loadSlashSubcommand_returns.
  repeat constructor; simpl; eauto; discriminate.
Defined.

(** X17: a subcommand group without its list of subcommands makes the
    loader throw when the loop reaches it: the options before it are
    registered, the options after it are never compiled. *)
Theorem loadSlashSubcommand_group_without_options (store : CommandStore)
    (pino : LoggerFactory) (name : string) (before after : list Option)
    (group : Option) :
  opt_type group = "SUB_COMMAND_GROUP" ->
  opt_options group = None ->
  fst (loadSlashSubcommand store pino (SlashSubcommand.mk name before)) = Ok tt ->
  let run :=
    loadSlashSubcommand store pino (SlashSubcommand.mk name (before ++ group :: after)) in
  resolves (fst run) = false
  /\ snd run = snd (loadSlashSubcommand store pino (SlashSubcommand.mk name before)).
Proof.
  intros Htype Hopts Hbefore run. subst run. revert Hbefore.
  unfold loadSlashSubcommand. cbn [SlashSubcommand.options SlashSubcommand.name].
  match goal with |- context [for_of _ ?b store] => set (body := b) end.
  assert (Hgroup : forall s, resolves (fst (body group s)) = false
                             /\ snd (body group s) = s).
  { intros s. unfold body. rewrite Htype. cbn [String.eqb Ascii.eqb Bool.eqb].
    unfold loadSubcommandGroup. rewrite Hopts. auto. }
  rewrite for_of_app. cbn [for_of]. unfold bind.
  destruct (for_of before body store) as [[[]|e] s1]; [|discriminate].
  destruct (Hgroup s1) as [Hthrow Hsame].
  destruct (body group s1) as [[[]|e] s2]; [discriminate|]. auto.
Qed.

Lemma loadSlashSubcommand_group_without_options_witness :
  snd (loadSlashSubcommand ∅ Sample.pino
         (SlashSubcommand.mk "p"
            ([Sample.s1] ++ mkOption "g" "SUB_COMMAND_GROUP" None None None None
                            :: [Sample.g])))
  = snd (loadSlashSubcommand ∅ Sample.pino (SlashSubcommand.mk "p" [Sample.s1])).
Proof.
  exact (proj2 (loadSlashSubcommand_group_without_options ∅ Sample.pino "p"
                  [Sample.s1] [Sample.g]
                  (mkOption "g" "SUB_COMMAND_GROUP" None None None None)
                  eq_refl eq_refl eq_refl)).
Defined.



(** X19: a subcommand among the options of a slash command is registered
    at [cmd:<command>:<subcommand>] whenever compilation returns, whatever
    options stand before and after it. *)
Theorem loadSlashSubcommand_registers_subcommand (store : CommandStore)
    (pino : LoggerFactory) (name : string) (before after : list Option)
    (subcommand : Option) :
  opt_type subcommand = "SUB_COMMAND" ->
  let run :=
    loadSlashSubcommand store pino
      (SlashSubcommand.mk name (before ++ subcommand :: after)) in
  fst run = Ok tt ->
  is_Some (snd run !! createKey ["cmd"; createKey [name; opt_name subcommand]]).
Proof.
  intros Htype run. subst run.
  set (k := createKey ["cmd"; createKey [name; opt_name subcommand]]).
  unfold loadSlashSubcommand. cbn [SlashSubcommand.options SlashSubcommand.name].
  match goal with |- context [for_of _ ?b store] => set (body := b) end.
  assert (Hbody : forall o s, keeps_key k s (snd (body o s))).
  { intros o s.
    pose proof (loadSlashSubcommand_keeps_key k s pino (SlashSubcommand.mk name [o])) as H.
    unfold loadSlashSubcommand in H.
    cbn [SlashSubcommand.options SlashSubcommand.name] in H.
    rewrite for_of_single in H. exact H. }
  assert (Hsub : forall s, is_Some (snd (body subcommand s) !! k)).
  { intros s. unfold body. rewrite Htype. cbn [String.eqb Ascii.eqb Bool.eqb].
    unfold loadSubcommand, bind, set, modify.
    apply loadAutocompletes_keeps_key. fold k. rewrite lookup_insert_eq. eauto. }
  rewrite for_of_app. cbn [for_of]. unfold bind.
  destruct (for_of before body store) as [[[]|e] s1]; [|discriminate].
  specialize (Hsub s1).
  destruct (body subcommand s1) as [[[]|e] s2]; [|discriminate].
  intros _. apply (for_of_keeps_key k body after Hbody s2), Hsub.
Qed.

Lemma loadSlashSubcommand_registers_subcommand_witness :
  is_Some
    (snd (loadSlashSubcommand ∅ Sample.pino
            (SlashSubcommand.mk "p" ([Sample.g] ++ Sample.s1 :: [])))
     !! "cmd:p:s1").
Proof.
  exact (loadSlashSubcommand_registers_subcommand ∅ Sample.pino "p" [Sample.g] []
           Sample.s1 eq_refl eq_refl).
Defined.

(** X20: the autocomplete handlers of a subcommand's options are registered
    under the subcommand's own path: every option of the subcommand that
    declares an autocomplete handler has an entry at
    [auto:<command>:<subcommand>:<option>] after [loadSubcommand]. *)
Theorem loadSubcommand_registers_autocompletes (store : CommandStore)
    (parentName : string) (pino : LoggerFactory) (subcommand option : Option)
    (options : list Option) :
  opt_options subcommand = Some options ->
  In option options ->
  is_Some (opt_autocomplete option) ->
  is_Some
    (snd (loadSubcommand store parentName pino subcommand)
     !! createKey ["auto"; createKey [parentName; opt_name subcommand]; opt_name option]).
Proof.
  intros Hopts Hin Hauto. apply elem_of_dom.
  unfold loadSubcommand, bind, set, modify.
  rewrite loadAutocompletes_dom. apply elem_of_union_r, elem_of_list_to_set.
  unfold autocomplete_keys. rewrite Hopts. unfold getAutocompletes.
  apply list_elem_of_In.
  apply (in_map (fun o => createKey ["auto";
                                      createKey [parentName; opt_name subcommand];
                                      opt_name o])).
  apply list_elem_of_In, list_elem_of_filter. split; [exact Hauto|].
  apply list_elem_of_In, Hin.
Qed.

Lemma loadSubcommand_registers_autocompletes_witness :
  is_Some
    (snd (loadSubcommand ∅ "p" Sample.pino
            (mkOption "find" "SUB_COMMAND" None (Some Sample.quiet) None
               (Some [Demo.plain_option "limit"; Demo.autocomplete_option "name"])))
     !! "auto:p:find:name").
Proof.
  refine (loadSubcommand_registers_autocompletes ∅ "p" Sample.pino
            (mkOption "find" "SUB_COMMAND" None (Some Sample.quiet) None
               (Some [Demo.plain_option "limit"; Demo.autocomplete_option "name"]))
            (Demo.autocomplete_option "name") _ eq_refl _ _).
  - right. left. reflexivity.
  - simpl. eauto.
Defined.

(** ** The interaction listener *)

Section InteractionListener.

Variable createLogger : string -> Logger.
Variable toLocaleString : Z -> string.

Let logger : Logger := Start.logger createLogger.

Let received : LogEntry := mkEntry logger LDebug (MText "Interaction received.").

(** One run of the listener, case by case. *)
Lemma listener_run (client : Client) (store : gmap string Start.BaseSlashCommand)
    (interaction : Start.Interaction) (w : World) :
  let commandName := Start.commandName interaction in
  Start.listener createLogger toLocaleString client store interaction w =
  if negb (Start.isCommand interaction) then
    (Ok tt,
     set_logs (logs w ++ [received;
                          mkEntry logger LDebug (MText "Interaction is not a command.")]) w)
  else
    match store !! commandName with
    | None =>
        (Ok tt,
         set_logs (logs w ++
                   [received;
                    mkEntry logger LWarn
                      (MText ("Command " +:+ quoted commandName
                              +:+ " was recieved, but no handler was present!"))]) w)
    | Some command =>
        let executing :=
          mkEntry logger LInfo
            (MText ("Executing command " +:+ quoted commandName +:+ "...")) in
        match Start.execute command
                (Start.mkContext client Start.LibFetch
                   (createLogger ("[commands] " +:+ commandName)) interaction)
                (ext w) with
        | (Ok _, x) =>
            (Ok tt,
             set_logs (logs w ++
                       [received; executing;
                        mkEntry logger LSuccess
                          (MText ("Finished executing command " +:+ quoted commandName
                                  +:+ ". Time took: "
                                  +:+ toLocaleString (clock x - clock (ext w))
                                  +:+ "ms"))])
               (set_ext x w))
        | (Throw error, x) =>
            (Ok tt,
             set_logs (logs w ++
                       [received; executing;
                        mkEntry logger LError
                          (MText ("Failed to execute command " +:+ quoted commandName
                                  +:+ "!"));
                        mkEntry logger LError (MValue error)])
               (set_ext x w))
        end
    end.
Proof.
  intros commandName. unfold Start.listener. fold commandName logger.
  unfold Start.createTimer. unfold_js. simpl.
  destruct (Start.isCommand interaction); simpl.
  - destruct (store !! commandName) as [command|]; simpl.
    + destruct (Start.execute command _ (ext w)) as [[[]|error] x]; simpl;
        unfold set_logs, set_ext, add_log; simpl; rewrite <- !app_assoc; reflexivity.
    + unfold set_logs, add_log; simpl. rewrite <- !app_assoc. reflexivity.
  - unfold set_logs, add_log; simpl. rewrite <- !app_assoc. reflexivity.
Qed.

(** X21: the interaction listener never rejects and never throws, whatever
    the interaction, the store and the command's handler do. *)
Theorem interaction_listener_resolves (client : Client)
    (store : gmap string Start.BaseSlashCommand) (interaction : Start.Interaction)
    (w : World) :
  fst (Start.listener createLogger toLocaleString client store interaction w) = Ok tt.
Proof.
  rewrite listener_run.
  destruct (Start.isCommand interaction); simpl; [|reflexivity].
  destruct (store !! Start.commandName interaction) as [command|]; [|reflexivity].
  destruct (Start.execute command _ (ext w)) as [[[]|error] x]; reflexivity.
Qed.

(** X22: an interaction that is not a command is dropped before the store
    is read: no handler runs, and the listener writes two debug entries and
    nothing else. *)
Theorem non_command_interaction_is_dropped (client : Client)
    (store : gmap string Start.BaseSlashCommand) (interaction : Start.Interaction)
    (w : World) :
  Start.isCommand interaction = false ->
  let run := Start.listener createLogger toLocaleString client store interaction w in
  ext (snd run) = ext w
  /\ added (logs w) (logs (snd run))
     = [ mkEntry logger LDebug (MText "Interaction received.");
         mkEntry logger LDebug (MText "Interaction is not a command.") ].
Proof.
  intros Hnot run. subst run. rewrite listener_run, Hnot. simpl.
  split; [reflexivity|apply added_app].
Qed.

(** X23: a command interaction whose name has no entry in the store runs no
    handler; the listener resolves after exactly one warning that names the
    command, and writes no error. *)
Theorem unknown_command_is_reported (client : Client)
    (store : gmap string Start.BaseSlashCommand) (interaction : Start.Interaction)
    (w : World) :
  Start.isCommand interaction = true ->
  store !! Start.commandName interaction = None ->
  let run := Start.listener createLogger toLocaleString client store interaction w in
  ext (snd run) = ext w
  /\ added (logs w) (logs (snd run))
     = [ mkEntry logger LDebug (MText "Interaction received.");
         mkEntry logger LWarn
           (MText ("Command " +:+ quoted (Start.commandName interaction)
                   +:+ " was recieved, but no handler was present!")) ]
  /\ count_level LWarn (added (logs w) (logs (snd run))) = 1
  /\ count_level LError (added (logs w) (logs (snd run))) = 0.
Proof.
  intros Hcommand Hmissing run. subst run.
  rewrite listener_run, Hcommand, Hmissing. simpl. rewrite added_app. auto.
Qed.

(** X24: when the handler of a command throws or rejects, the listener
    catches the error: it resolves, having written the announcement and then
    two error entries, the message that names the command and the thrown
    value. *)
Theorem failing_command_is_contained (client : Client)
    (store : gmap string Start.BaseSlashCommand) (interaction : Start.Interaction)
    (command : Start.BaseSlashCommand) (w : World) (error : Value) (x : Ext) :
  let commandName := Start.commandName interaction in
  Start.isCommand interaction = true ->
  store !! commandName = Some command ->
  Start.execute command
    (Start.mkContext client Start.LibFetch
       (createLogger ("[commands] " +:+ commandName)) interaction) (ext w)
  = (Throw error, x) ->
  let run := Start.listener createLogger toLocaleString client store interaction w in
  fst run = Ok tt
  /\ added (logs w) (logs (snd run))
     = [ mkEntry logger LDebug (MText "Interaction received.");
         mkEntry logger LInfo
           (MText ("Executing command " +:+ quoted commandName +:+ "..."));
         mkEntry logger LError
           (MText ("Failed to execute command " +:+ quoted commandName +:+ "!"));
         mkEntry logger LError (MValue error) ]
  /\ count_level LError (added (logs w) (logs (snd run))) = 2
  /\ ext (snd run) = x.
Proof.
  intros commandName Hcommand Hstored Hthrow run. subst run commandName.
  rewrite listener_run, Hcommand, Hstored. cbn [negb]. rewrite Hthrow.
  cbn [fst snd]. unfold set_logs. cbn [logs ext]. rewrite added_app. auto.
Qed.

(** X25: when the handler of a command returns, the listener writes the
    announcement and one success entry that reports the time the handler
    took; it writes no warning and no error. *)
Theorem successful_command_is_timed (client : Client)
    (store : gmap string Start.BaseSlashCommand) (interaction : Start.Interaction)
    (command : Start.BaseSlashCommand) (w : World) (x : Ext) :
  let commandName := Start.commandName interaction in
  Start.isCommand interaction = true ->
  store !! commandName = Some command ->
  Start.execute command
    (Start.mkContext client Start.LibFetch
       (createLogger ("[commands] " +:+ commandName)) interaction) (ext w)
  = (Ok tt, x) ->
  let run := Start.listener createLogger toLocaleString client store interaction w in
  added (logs w) (logs (snd run))
  = [ mkEntry logger LDebug (MText "Interaction received.");
      mkEntry logger LInfo
        (MText ("Executing command " +:+ quoted commandName +:+ "..."));
      mkEntry logger LSuccess
        (MText ("Finished executing command " +:+ quoted commandName
                +:+ ". Time took: " +:+ toLocaleString (clock x - clock (ext w))
                +:+ "ms")) ]
  /\ ext (snd run) = x.
Proof.
  intros commandName Hcommand Hstored Hok run. subst run commandName.
  rewrite listener_run, Hcommand, Hstored. cbn [negb]. rewrite Hok.
  cbn [fst snd]. unfold set_logs. cbn [logs ext]. rewrite added_app. auto.
Qed.

End InteractionListener.

Lemma non_command_interaction_is_dropped_witness :
  ext (snd (Start.listener Demo.createLogger Demo.toLocaleString TheClient
              Demo.commands (Start.mkInteraction false "ping") Sample.world0))
  = Sample.ext0.
Proof.
  exact (proj1 (non_command_interaction_is_dropped Demo.createLogger
                  Demo.toLocaleString TheClient Demo.commands
                  (Start.mkInteraction false "ping") Sample.world0 eq_refl)).
Defined.

Lemma unknown_command_is_reported_witness :
  count_level LWarn
    (added (logs Sample.world0)
       (logs (snd (Start.listener Demo.createLogger Demo.toLocaleString TheClient
                     Demo.commands (Start.mkInteraction true "pong") Sample.world0))))
  = 1.
Proof.
  exact (proj1 (proj2 (proj2
    (unknown_command_is_reported Demo.createLogger Demo.toLocaleString TheClient
       Demo.commands (Start.mkInteraction true "pong") Sample.world0
       eq_refl eq_refl)))).
Defined.

Lemma failing_command_is_contained_witness :
  fst (Start.listener Demo.createLogger Demo.toLocaleString TheClient Demo.commands
         (Start.mkInteraction true "crash") Sample.world0)
  = Ok tt.
Proof.
  exact (proj1 (failing_command_is_contained Demo.createLogger Demo.toLocaleString
                  TheClient Demo.commands (Start.mkInteraction true "crash")
                  Demo.crash Sample.world0 (VStr "boom") Sample.ext0
                  eq_refl eq_refl eq_refl)).
Defined.

Lemma successful_command_is_timed_witness :
  ext (snd (Start.listener Demo.createLogger Demo.toLocaleString TheClient
              Demo.commands (Start.mkInteraction true "ping") Sample.world0))
  = Sample.ext0.
Proof.
  exact (proj2 (successful_command_is_timed Demo.createLogger Demo.toLocaleString
                  TheClient Demo.commands (Start.mkInteraction true "ping")
                  Demo.ping Sample.world0 Sample.ext0 eq_refl eq_refl eq_refl)).
Defined.

(** ** The command line entry *)

(** X26: the entry file starts at most one script.  Without arguments it
    starts the development script; with [register], [build] or [start] as
    first argument it starts that script; with any other first argument it
    starts nothing, and the arguments after the first never matter. *)
Theorem chooks_starts_at_most_one (argv : list string) :
  length (Chooks.started argv) <= 1
  /\ (Chooks.started argv = [Chooks.Dev] <-> drop 2 argv = [])
  /\ (forall first rest,
        drop 2 argv = first :: rest ->
        first <> "register" -> first <> "build" -> first <> "start" ->
        Chooks.started argv = [])
  /\ (forall first rest,
        drop 2 argv = first :: rest ->
        Chooks.started argv = Chooks.started ["node"; "chooks"; first])
  /\ (forall rest,
        drop 2 argv = "register" :: rest -> Chooks.started argv = [Chooks.Register])
  /\ (forall rest,
        drop 2 argv = "build" :: rest -> Chooks.started argv = [Chooks.Build])
  /\ (forall rest,
        drop 2 argv = "start" :: rest -> Chooks.started argv = [Chooks.StartApp]).
Proof.
  unfold Chooks.started. destruct (drop 2 argv) as [|first rest] eqn:Hargs.
  - simpl. repeat split; auto; discriminate.
  - cbn [length Nat.eqb Chooks.first_is app].
    split; [|split; [|split; [|split; [|split; [|split]]]]].
    + destruct (String.eqb_spec first "register") as [Hr|Hr]; [subst first; simpl; lia|].
      destruct (String.eqb_spec first "build") as [Hb|Hb]; [subst first; simpl; lia|].
      destruct (String.eqb_spec first "start") as [Hs|Hs]; simpl; lia.
    + split; [|discriminate].
      destruct (String.eqb first "register"), (String.eqb first "build"),
        (String.eqb first "start"); discriminate.
    + intros f r [= <- <-] Hr Hb Hs.
      rewrite (proj2 (String.eqb_neq _ _) Hr), (proj2 (String.eqb_neq _ _) Hb),
        (proj2 (String.eqb_neq _ _) Hs).
      reflexivity.
    + intros f r [= <- <-]. reflexivity.
    + intros r [= -> <-]. reflexivity.
    + intros r [= -> <-]. reflexivity.
    + intros r [= -> <-]. reflexivity.
Qed.

Lemma chooks_starts_at_most_one_witness :
  Chooks.started ["node"; "chooks"; "deploy"; "--force"] = [].
Proof.
  exact (proj1 (proj2 (proj2 (chooks_starts_at_most_one
                                ["node"; "chooks"; "deploy"; "--force"])))
           "deploy" ["--force"] eq_refl
           ltac:(discriminate) ltac:(discriminate) ltac:(discriminate)).
Defined.
